(** * streamtools: the FromEmail block (st/library/fromEmail.go)

    A shallow embedding of the block that reads a mailbox over IMAP and
    broadcasts every message it fetches.  The block's own functions
    ([parseAuthRules], [newIMAPClient], [findUnreadEmails], [getEmails],
    [fetchUnread], [idle], [sleep], [Run]) are translated one by one.  The
    go-imap client, encoding/json and the network are outside the
    repository: they appear as an interface ([ImapWorld]) whose operations
    thread an opaque world state, so that every theorem of the generic part
    holds whatever the library and the server do. *)

From stdpp Require Import gmap strings list.

Open Scope string_scope.
Open Scope list_scope.
Open Scope nat_scope.

(** ** Go values *)

(** A Go [error].  The block only ever forwards [err.Error()] to the
    block's error sink, so an error is kept as the value that was raised. *)
Inductive error :=
| ValidationError (field : string)   (* raised by util.ParseRequiredString *)
| LibError (msg : string).           (* raised by imap, tls or json *)

(** The [interface{}] payload stored under a key of a rule message. *)
Inductive value :=
| VNull
| VBool (b : bool)
| VNumber (n : Z)
| VString (s : string).

(** [*imap.Client]: [None] is the nil pointer, [Some c] the client [c]. *)
Definition Client := nat.

(** A result of running Go code: a value, or a run-time panic (the only
    panics modelled are nil-pointer dereferences). *)
Inductive res (A : Type) :=
| Val (a : A)
| Panic.
Arguments Val {A} a.
Arguments Panic {A}.

(** ** util.ParseRequiredString *)

(** Modelled from the spec: [util.ParseRequiredString] lives in st/util,
    which is not among the sources.  Section 6 of the specification:
    "Configuration rule schema (required fields, all string-valued) ...
    Missing or non-string value for any required field is a validation
    failure identified by field name."  On failure the string result is
    Go's zero value. *)
Definition ParseRequiredString (msgI : gmap string value) (key : string)
  : string * option error :=
  match msgI !! key with
  | Some (VString s) => (s, None)
  | _ => ("", Some (ValidationError key))
  end.

(** ** The block *)

(** The fields of [FromEmail] that the block itself reads and writes.  The
    channels ([queryrule], [inrule], [out], [quit]) are modelled by the
    stimuli given to [Run] and by the sinks of the machine state below. *)
Record FromEmail := {
  host : string;
  username : string;
  password : string;
  mailbox : string;
  client : option Client;
}.

(** [NewFromEmail]: configured for GMail, no client yet. *)
Definition NewFromEmail : FromEmail :=
  {| host := "imap.gmail.com"; username := ""; password := "";
     mailbox := "INBOX"; client := None |}.

Definition set_host (v : string) (e : FromEmail) : FromEmail :=
  {| host := v; username := username e; password := password e;
     mailbox := mailbox e; client := client e |}.
Definition set_username (v : string) (e : FromEmail) : FromEmail :=
  {| host := host e; username := v; password := password e;
     mailbox := mailbox e; client := client e |}.
Definition set_password (v : string) (e : FromEmail) : FromEmail :=
  {| host := host e; username := username e; password := v;
     mailbox := mailbox e; client := client e |}.
Definition set_client (v : option Client) (e : FromEmail) : FromEmail :=
  {| host := host e; username := username e; password := password e;
     mailbox := mailbox e; client := v |}.

(** [parseAuthRules]: each field is assigned from the helper's result
    before the error is looked at; the fourth assignment targets
    [e.password] again, as in the source (line 226). *)
Definition parseAuthRules (msgI : gmap string value) (e : FromEmail)
  : FromEmail * option error :=
  let '(v, err) := ParseRequiredString msgI "Host" in
  let e := set_host v e in
  match err with
  | Some _ => (e, err)
  | None =>
    let '(v, err) := ParseRequiredString msgI "Username" in
    let e := set_username v e in
    match err with
    | Some _ => (e, err)
    | None =>
      let '(v, err) := ParseRequiredString msgI "Password" in
      let e := set_password v e in
      match err with
      | Some _ => (e, err)
      | None =>
        let '(v, err) := ParseRequiredString msgI "Mailbox" in
        let e := set_password v e in
        match err with
        | Some _ => (e, err)
        | None => (e, None)
        end
      end
    end
  end.

(** The reply to a query (lines 271-276). *)
Definition snapshot (e : FromEmail) : gmap string string :=
  {[ "Host" := host e; "Username" := username e;
     "Password" := password e; "Mailbox" := mailbox e ]}.

(** ** Rules *)

(** The string stored under a key of a rule, if there is one. *)
Definition str_field (msgI : gmap string value) (key : string) : option string :=
  match msgI !! key with
  | Some (VString s) => Some s
  | _ => None
  end.

Definition required : list string := ["Host"; "Username"; "Password"; "Mailbox"].

(** The first required field that is missing or not a string; [None] for
    a rule that passes validation. *)
Definition offending (msgI : gmap string value) : option string :=
  find (fun key => bool_decide (str_field msgI key = None)) required.

(** ** The go-imap and encoding/json interface *)

(** [imap.SeqSet] as far as the block uses it: [NewSeqSet("")] is empty,
    [Add("1:*")] selects every message, [AddNum] adds one identifier. *)
Record SeqSet := {
  seq_all : bool;
  seq_nums : gset N;
}.

Definition NewSeqSet : SeqSet := {| seq_all := false; seq_nums := ∅ |}.
Definition Add_1_star (s : SeqSet) : SeqSet :=
  {| seq_all := true; seq_nums := seq_nums s |}.
Definition AddNum (s : SeqSet) (uid : N) : SeqSet :=
  {| seq_all := seq_all s; seq_nums := {[ uid ]} ∪ seq_nums s |}.

(** [rsp.MessageInfo()] of a FETCH response: the [UID] and the attribute
    map of one message. *)
Record MessageInfo (Field : Type) := {
  UID : N;
  Attrs : gmap string Field;
}.
Arguments UID {Field} _.
Arguments Attrs {Field} _.

(** [imap.Command]: only its [Data] (the responses collected for the
    command) is read. *)
Record Command (Field : Type) := {
  Data : list (MessageInfo Field);
}.
Arguments Data {Field} _.

(** [emailMessage] (lines 31-34). *)
Record emailMessage (Time : Type) := {
  Received : Time;
  Body : string;
}.
Arguments Received {Time} _.
Arguments Body {Time} _.

(** What the block needs from outside the repository.  Every operation on
    a connection takes the state of the world (network, server, client
    library) and returns the next one; [Fetch], [UIDFetch] and [Select]
    stand for the command followed by [imap.Wait]. *)
Class ImapWorld := {
  World : Type;
  Time : Type;
  Field : Type;
  nilField : Field;
  DialTLS : string -> World -> (option Client * option error) * World;
  Login : Client -> string -> string -> World -> option error * World;
  Select : Client -> string -> bool -> World -> option error * World;
  Fetch : Client -> SeqSet -> list string -> World ->
          (Command Field * option error) * World;
  UIDFetch : Client -> SeqSet -> list string -> World ->
             (Command Field * option error) * World;
  Idle : Client -> World -> option error * World;
  IdleTerm : Client -> World -> option error * World;
  Recv : Client -> World -> option error * World;
  ClientData : Client -> World -> nat;   (* len(client.Data) *)
  Close : Client -> bool -> World -> option error * World;
  AsDateTime : Field -> Time;
  AsString : Field -> string;
  Marshal : emailMessage Time -> string + error;
}.

(** The library calls the block makes, with what they returned. *)
Inductive call :=
| CDialTLS (addr : string) (conn : option Client) (err : option error)
| CLogin (c : Client) (user pass : string) (err : option error)
| CSelect (c : Client) (mbox : string) (readonly : bool) (err : option error)
| CFetch (c : Client) (seq : SeqSet) (items : list string) (err : option error)
| CUIDFetch (c : Client) (seq : SeqSet) (items : list string) (err : option error)
| CIdle (c : Client) (err : option error)
| CIdleTerm (c : Client) (err : option error)
| CRecv (c : Client) (err : option error)
| CClose (c : Client) (flush : bool).

Definition is_fetch (c : call) : bool :=
  match c with
  | CFetch _ _ _ _ | CUIDFetch _ _ _ _ => true
  | _ => false
  end.

Definition is_close (c : call) : bool :=
  match c with
  | CClose _ _ => true
  | _ => false
  end.

(** The Sessions that are open after a history of calls: a connection
    becomes a Session when its mailbox select succeeds and stops being one
    when it is closed. *)
Definition session_step (open : list Client) (c : call) : list Client :=
  match c with
  | CSelect k _ _ None => k :: open
  | CClose k _ => filter (fun k' => k' ≠ k) open
  | _ => open
  end.

Definition open_sessions (log : list call) : list Client :=
  fold_left session_step log [].

Section Block.
Context `{ImapWorld}.

(** ** Machine state *)

(** The block together with everything it can affect. *)
Record St := {
  blk : FromEmail;                    (* the receiver [e] *)
  world : World;
  calls : list call;                  (* library calls so far, oldest first *)
  out : list string;                  (* payloads sent on [e.out], oldest first *)
  errlog : list error;                (* errors passed to [e.Error] *)
  replies : list (gmap string string);(* answers sent on query channels *)
  defers : list (option Client);      (* [Run]'s deferred closes, latest first *)
  watchers : nat;                     (* [go e.idle()] statements executed *)
  sleeps : nat;                       (* calls of [sleep(poll)] *)
}.

Definition M (A : Type) : Type := St -> res A * St.

Definition ret {A} (a : A) : M A := fun s => (Val a, s).

Definition bind {A B} (m : M A) (k : A -> M B) : M B :=
  fun s =>
    match m s with
    | (Val a, s') => k a s'
    | (Panic, s') => (Panic, s')
    end.

Notation "x <-- m ;; k" := (bind m (fun x => k))
  (at level 100, m at next level, right associativity).
Notation "m >> k" := (bind m (fun _ => k))
  (at level 100, right associativity).

Definition get_blk : M FromEmail := fun s => (Val (blk s), s).

Definition put_blk (e : FromEmail) : M unit :=
  fun s => (Val tt,
    {| blk := e; world := world s; calls := calls s; out := out s;
       errlog := errlog s; replies := replies s; defers := defers s;
       watchers := watchers s; sleeps := sleeps s |}).

(** [e.Error(err.Error())] *)
Definition Error (err : error) : M unit :=
  fun s => (Val tt,
    {| blk := blk s; world := world s; calls := calls s; out := out s;
       errlog := errlog s ++ [err]; replies := replies s;
       defers := defers s; watchers := watchers s; sleeps := sleeps s |}).

(** [e.out <- payload] *)
Definition send_out (payload : string) : M unit :=
  fun s => (Val tt,
    {| blk := blk s; world := world s; calls := calls s;
       out := out s ++ [payload]; errlog := errlog s; replies := replies s;
       defers := defers s; watchers := watchers s; sleeps := sleeps s |}).

(** [respChan <- m] *)
Definition send_reply (m : gmap string string) : M unit :=
  fun s => (Val tt,
    {| blk := blk s; world := world s; calls := calls s; out := out s;
       errlog := errlog s; replies := replies s ++ [m]; defers := defers s;
       watchers := watchers s; sleeps := sleeps s |}).

(** [defer c.Close(true)]: the receiver is evaluated now. *)
Definition push_defer (c : option Client) : M unit :=
  fun s => (Val tt,
    {| blk := blk s; world := world s; calls := calls s; out := out s;
       errlog := errlog s; replies := replies s; defers := c :: defers s;
       watchers := watchers s; sleeps := sleeps s |}).

(** [go e.idle()] *)
Definition go_idle : M unit :=
  fun s => (Val tt,
    {| blk := blk s; world := world s; calls := calls s; out := out s;
       errlog := errlog s; replies := replies s; defers := defers s;
       watchers := S (watchers s); sleeps := sleeps s |}).

(** [sleep(poll)] (lines 132-137) starts a goroutine that sleeps ten
    seconds and then sends on [poll]; the call itself only starts it. *)
Definition sleep : M unit :=
  fun s => (Val tt,
    {| blk := blk s; world := world s; calls := calls s; out := out s;
       errlog := errlog s; replies := replies s; defers := defers s;
       watchers := watchers s; sleeps := S (sleeps s) |}).

(** A library call: run it on the world and record it. *)
Definition lib {A} (op : World -> A * World) (ev : A -> call) : M A :=
  fun s =>
    let '(a, w) := op (world s) in
    (Val a,
    {| blk := blk s; world := w; calls := calls s ++ [ev a]; out := out s;
       errlog := errlog s; replies := replies s; defers := defers s;
       watchers := watchers s; sleeps := sleeps s |}).

(** A method call through a pointer dereferences it: nil panics. *)
Definition deref {A} (p : option A) : M A :=
  fun s => match p with
           | Some a => (Val a, s)
           | None => (Panic, s)
           end.

Definition imap_DialTLS (addr : string) : M (option Client * option error) :=
  lib (DialTLS addr) (fun r => CDialTLS addr (fst r) (snd r)).
Definition conn_Login (conn : option Client) (user pass : string)
  : M (option error) :=
  c <-- deref conn ;; lib (Login c user pass) (CLogin c user pass).
Definition conn_Select (conn : option Client) (mbox : string) (readonly : bool)
  : M (option error) :=
  c <-- deref conn ;; lib (Select c mbox readonly) (CSelect c mbox readonly).
Definition conn_Fetch (conn : option Client) (seq : SeqSet) (items : list string)
  : M (Command Field * option error) :=
  c <-- deref conn ;; lib (Fetch c seq items) (fun r => CFetch c seq items (snd r)).
Definition conn_UIDFetch (conn : option Client) (seq : SeqSet) (items : list string)
  : M (Command Field * option error) :=
  c <-- deref conn ;;
  lib (UIDFetch c seq items) (fun r => CUIDFetch c seq items (snd r)).
Definition conn_Idle (conn : option Client) : M (option error) :=
  c <-- deref conn ;; lib (Idle c) (CIdle c).
Definition conn_IdleTerm (conn : option Client) : M (option error) :=
  c <-- deref conn ;; lib (IdleTerm c) (CIdleTerm c).
Definition conn_Recv (conn : option Client) : M (option error) :=
  c <-- deref conn ;; lib (Recv c) (CRecv c).
Definition conn_Close (conn : option Client) (flush : bool) : M (option error) :=
  c <-- deref conn ;; lib (Close c flush) (fun _ => CClose c flush).
Definition conn_DataLen (conn : option Client) : M nat :=
  c <-- deref conn ;; fun s => (Val (ClientData c (world s)), s).

(** ** Connection Manager: [newIMAPClient] (lines 42-59) *)

(** Every exit returns [conn] itself next to the error. *)
Definition newIMAPClient (host username password mailbox : string)
  : M (option Client * option error) :=
  r <-- imap_DialTLS host ;;
  let conn := fst r in
  match snd r with
  | Some err => ret (conn, Some err)
  | None =>
    err <-- conn_Login conn username password ;;
    match err with
    | Some err => ret (conn, Some err)
    | None =>
      err <-- conn_Select conn mailbox true ;;
      match err with
      | Some err => ret (conn, Some err)
      | None => ret (conn, None)
      end
    end
  end.

(** ** Unread Fetcher (lines 139-196) *)

(** [findUnreadEmails]: a FETCH of the header and UID of the sequence set
    [1:*], that is of every message of the mailbox; on error an empty
    command is returned with it. *)
Definition findUnreadEmails (conn : option Client)
  : M (Command Field * option error) :=
  let allMsgs := Add_1_star NewSeqSet in
  r <-- conn_Fetch conn allMsgs ["RFC822.HEADER"; "UID"] ;;
  match snd r with
  | Some err => ret ({| Data := [] |}, Some err)
  | None => ret (fst r, None)
  end.

(** [msgFields[key]]: a missing key reads as the nil field. *)
Definition attr (m : MessageInfo Field) (key : string) : Field :=
  default nilField (Attrs m !! key).

(** The message built from one response of the UID FETCH (line 180). *)
Definition email_of (msgData : MessageInfo Field) : emailMessage Time :=
  {| Received := AsDateTime (attr msgData "INTERNALDATE");
     Body := AsString (attr msgData "BODY[]") |}.

(** Lines 167-171: the identifiers of the responses, as one sequence
    set. *)
Definition uid_seq (cmd : Command Field) : SeqSet :=
  fold_left (fun seq rsp => AddNum seq (UID rsp)) (Data cmd) NewSeqSet.

(** Lines 178-182: one message per response, appended in the order
    received. *)
Definition emails_of (fCmd : Command Field) : list (emailMessage Time) :=
  fold_left (fun emails msgData => emails ++ [email_of msgData]) (Data fCmd) [].

(** [getEmails]: the identifiers of [cmd.Data] are fetched in one UID
    FETCH; on error the (empty) list is returned with it. *)
Definition getEmails (client : option Client) (cmd : Command Field)
  : M (list (emailMessage Time) * option error) :=
  let seq := uid_seq cmd in
  r <-- conn_UIDFetch client seq ["INTERNALDATE"; "BODY[]"; "UID"; "RFC822.HEADER"] ;;
  match snd r with
  | Some err => ret ([], Some err)
  | None => ret (emails_of (fst r), None)
  end.

(** What [json.Marshal] makes of a message: its payload, or its refusal. *)
Definition encoded (email : emailMessage Time) : option string :=
  match Marshal email with
  | inl emailStr => Some emailStr
  | inr _ => None
  end.

Definition refusal (email : emailMessage Time) : option error :=
  match Marshal email with
  | inl _ => None
  | inr err => Some err
  end.

(** The loop of lines 151-159: a message that does not serialize is
    reported and skipped, the others are sent on [e.out]. *)
Fixpoint emit_emails (emails : list (emailMessage Time)) : M unit :=
  match emails with
  | [] => ret tt
  | email :: rest =>
    match Marshal email with
    | inr err => Error err >> emit_emails rest
    | inl emailStr => send_out emailStr >> emit_emails rest
    end
  end.

Definition fetchUnread : M (option error) :=
  e <-- get_blk ;;
  r <-- findUnreadEmails (client e) ;;
  match snd r with
  | Some err => ret (Some err)
  | None =>
    e <-- get_blk ;;
    r' <-- getEmails (client e) (fst r) ;;
    match snd r' with
    | Some err => ret (Some err)
    | None => emit_emails (fst r') >> ret None
    end
  end.

(** ** Idle Watcher (lines 61-137) *)

(** How a piece of a loop ends: the loop goes on, or the function
    returns. *)
Inductive ctl := Continue | Return.

(** Lines 62-67: arm the push-wait. *)
Definition idle_arm : M ctl :=
  e <-- get_blk ;;
  err <-- conn_Idle (client e) ;;
  match err with
  | Some err => Error err >> ret Return
  | None => ret Continue
  end.

(** The [case <-poll] branch (lines 79-114): every path, the error exits
    included, calls [sleep(poll)] before it leaves the branch. *)
Definition idle_poll : M ctl :=
  e <-- get_blk ;;
  err <-- conn_Recv (client e) ;;
  match err with
  | Some err => Error err >> sleep >> ret Return
  | None =>
    e <-- get_blk ;;
    n <-- conn_DataLen (client e) ;;
    if 0 <? n then
      e <-- get_blk ;;
      err <-- conn_IdleTerm (client e) ;;
      match err with
      | Some err => Error err >> sleep >> ret Return
      | None =>
        err <-- fetchUnread ;;
        match err with
        | Some err => Error err >> sleep >> ret Return
        | None =>
          e <-- get_blk ;;
          err <-- conn_Idle (client e) ;;
          match err with
          | Some err => Error err >> sleep >> ret Return
          | None => sleep >> ret Continue
          end
        end
      end
    else sleep >> ret Continue
  end.

(** The [case <-reset.C] branch (lines 116-127). *)
Definition idle_reset : M ctl :=
  e <-- get_blk ;;
  err <-- conn_IdleTerm (client e) ;;
  match err with
  | Some err => Error err >> ret Return
  | None =>
    e <-- get_blk ;;
    err <-- conn_Idle (client e) ;;
    match err with
    | Some err => Error err >> ret Return
    | None => ret Continue
    end
  end.

(** *** The goroutine that runs [idle]

    [idle] makes the channel [poll] (unbuffered) and the ticker [reset].
    The goroutines that ever hold [poll] are the watcher itself and the
    goroutines started by [sleep(poll)]. *)

(** Where the watcher stands. *)
Inductive idle_pc :=
| AtArm      (* line 63: about to arm the push-wait *)
| AtKick     (* line 71: in the send [poll <- 0] *)
| AtSelect   (* line 78: in the select of the loop *)
| Exited     (* returned *)
| Crashed.   (* panicked *)

Definition poll_interval : nat := 10.          (* seconds, line 134 *)
Definition reset_interval : nat := 20 * 60.    (* seconds, line 74 *)

Record watcher := {
  pc : idle_pc;
  sleepers : list nat;   (* goroutines of [sleep]: seconds left to sleep,
                            0 when in the send [poll <- 1] *)
  ticker : option nat;   (* seconds to the next tick of [reset], once made *)
  tick_ready : bool;     (* a tick waits in [reset.C] *)
}.

Definition new_watcher : watcher :=
  {| pc := AtArm; sleepers := []; ticker := None; tick_ready := false |}.

(** Before the loop: the watcher has not reached its select, no goroutine
    of [sleep] exists and the ticker is not made. *)
Definition before_loop (w : watcher) : Prop :=
  pc w ≠ AtSelect ∧ sleepers w = [] ∧ ticker w = None.

(** A goroutine that holds [poll]. *)
Inductive holder := Watcher | Sleeper (i : nat).

Definition holder_eqb (a b : holder) : bool :=
  match a, b with
  | Watcher, Watcher => true
  | Sleeper i, Sleeper j => Nat.eqb i j
  | _, _ => false
  end.

(** [h] is blocked in a send on [poll]. *)
Definition sending (w : watcher) (h : holder) : bool :=
  match h with
  | Watcher => match pc w with AtKick => true | _ => false end
  | Sleeper i => match sleepers w !! i with Some O => true | _ => false end
  end.

(** [h] is blocked in a receive from [poll]: only the watcher's select
    receives; the goroutines of [sleep] only send. *)
Definition receiving (w : watcher) (h : holder) : bool :=
  match h with
  | Watcher => match pc w with AtSelect => true | _ => false end
  | Sleeper _ => false
  end.

(** An unbuffered channel passes a value when a sender and a receiver,
    two different goroutines, are both blocked on it. *)
Definition rendezvous (w : watcher) (snd rcv : holder) : bool :=
  negb (holder_eqb snd rcv) && sending w snd && receiving w rcv.

(** What the scheduler, the clock and the channels can do next. *)
Inductive event :=
| Second                         (* one second passes *)
| RunArm                         (* the watcher runs lines 62-67 *)
| Pass (snd rcv : holder)        (* a value passes over [poll] *)
| ResetTick.                     (* the select takes [<-reset.C] *)

Definition with_pc (p : idle_pc) (w : watcher) : watcher :=
  {| pc := p; sleepers := sleepers w; ticker := ticker w;
     tick_ready := tick_ready w |}.

Definition pc_of (r : res ctl) : idle_pc :=
  match r with
  | Val Continue => AtSelect
  | Val Return => Exited
  | Panic => Crashed
  end.

(** The sender's side of a [Pass]: the watcher goes on to make the ticker
    and enter the loop; a goroutine of [sleep] ends. *)
Definition sent (snd : holder) (w : watcher) : watcher :=
  match snd with
  | Watcher =>
    {| pc := AtSelect; sleepers := sleepers w;
       ticker := Some reset_interval; tick_ready := false |}
  | Sleeper i =>
    {| pc := pc w; sleepers := delete i (sleepers w); ticker := ticker w;
       tick_ready := tick_ready w |}
  end.

Definition tick (w : watcher) : watcher :=
  {| pc := pc w;
     sleepers := map Nat.pred (sleepers w);
     ticker := match ticker w with
               | Some (S (S n)) => Some (S n)
               | Some _ => Some reset_interval
               | None => None
               end;
     tick_ready := match ticker w with
                   | Some (S (S n)) => tick_ready w
                   | Some _ => true
                   | None => tick_ready w
                   end |}.

(** One step of the watcher; [None] when the event cannot happen in the
    state. *)
Definition idle_step (ev : event) (w : watcher) (s : St)
  : option (watcher * St) :=
  match ev with
  | Second => Some (tick w, s)
  | RunArm =>
    match pc w with
    | AtArm =>
      let '(r, s') := idle_arm s in
      Some (with_pc (match r with
                     | Val Continue => AtKick
                     | Val Return => Exited
                     | Panic => Crashed
                     end) w, s')
    | _ => None
    end
  | Pass snd rcv =>
    if rendezvous w snd rcv then
      let w := sent snd w in
      match rcv with
      | Watcher =>
        let '(r, s') := idle_poll s in
        Some ({| pc := pc_of r;
                 sleepers := sleepers w ++
                             replicate (sleeps s' - sleeps s) poll_interval;
                 ticker := ticker w; tick_ready := tick_ready w |}, s')
      | Sleeper _ => Some (w, s)
      end
    else None
  | ResetTick =>
    match pc w with
    | AtSelect =>
      if tick_ready w then
        let '(r, s') := idle_reset s in
        Some ({| pc := pc_of r; sleepers := sleepers w; ticker := ticker w;
                 tick_ready := false |}, s')
      else None
    | _ => None
    end
  end.

(** A run of the watcher under a schedule; events that cannot happen are
    skipped. *)
Fixpoint idle_run (evs : list event) (w : watcher) (s : St) : watcher * St :=
  match evs with
  | [] => (w, s)
  | ev :: rest =>
    match idle_step ev w s with
    | Some (w', s') => idle_run rest w' s'
    | None => idle_run rest w s
    end
  end.

(** ** Rule Controller: [Run] (lines 235-279) *)

Inductive stimulus :=
| InRule (msgI : gmap string value)   (* a message on [e.inrule] *)
| Quit                                (* a message on [e.quit] *)
| QueryRule.                          (* a reply channel on [e.queryrule] *)

(** [case msgI := <-e.inrule].  The result of [newIMAPClient] is assigned
    to [e.client] before the error is examined; the close is deferred, and
    the watcher started, only past the error checks. *)
Definition Run_inrule (msgI : gmap string value) : M unit :=
  e <-- get_blk ;;
  let r := parseAuthRules msgI e in
  put_blk (fst r) >>
  match snd r with
  | Some err => Error err
  | None =>
    e <-- get_blk ;;
    r <-- newIMAPClient (host e) (username e) (password e) (mailbox e) ;;
    e <-- get_blk ;;
    put_blk (set_client (fst r) e) >>
    match snd r with
    | Some err => Error err
    | None =>
      e <-- get_blk ;;
      push_defer (client e) >>
      err <-- fetchUnread ;;
      match err with
      | Some err => Error err
      | None => go_idle
      end
    end
  end.

(** [case <-e.quit]: close the current client, then return. *)
Definition Run_quit : M unit :=
  e <-- get_blk ;;
  _ <-- conn_Close (client e) true ;;
  ret tt.

(** [case respChan := <-e.queryrule] *)
Definition Run_queryrule : M unit :=
  e <-- get_blk ;;
  send_reply (snapshot e).

Inductive status :=
| Returned    (* [Run] returned *)
| Blocked.    (* no stimulus left: [Run] waits in its select *)

Fixpoint Run_loop (stimuli : list stimulus) : M status :=
  match stimuli with
  | [] => ret Blocked
  | InRule msgI :: rest => Run_inrule msgI >> Run_loop rest
  | Quit :: _ => Run_quit >> ret Returned
  | QueryRule :: rest => Run_queryrule >> Run_loop rest
  end.

(** The deferred closes, latest first; a panic in one of them does not
    keep the others from running. *)
Fixpoint run_defers (ds : list (option Client)) : M unit :=
  fun s =>
    match ds with
    | [] => (Val tt, s)
    | c :: rest =>
      match conn_Close c true s with
      | (Val _, s') => run_defers rest s'
      | (Panic, s') => (Panic, snd (run_defers rest s'))
      end
    end.

(** [Run]: the loop, then the deferred calls, whether the loop returned or
    panicked. *)
Definition Run (stimuli : list stimulus) : M status :=
  fun s =>
    match Run_loop stimuli s with
    | (Val Blocked, s') => (Val Blocked, s')
    | (Val Returned, s') =>
      match run_defers (defers s') s' with
      | (Val _, s'') => (Val Returned, s'')
      | (Panic, s'') => (Panic, s'')
      end
    | (Panic, s') => (Panic, snd (run_defers (defers s') s'))
    end.

(** A block fresh from the factory, in a given world. *)
Definition start (w : World) : St :=
  {| blk := NewFromEmail; world := w; calls := []; out := [];
     errlog := []; replies := []; defers := []; watchers := 0;
     sleeps := 0 |}.

(** ** Vocabulary for the history of calls *)

(** The error a recorded call returned, if any ([Close]'s is dropped by
    the block). *)
Definition call_err (k : call) : option error :=
  match k with
  | CDialTLS _ _ err | CLogin _ _ _ err | CSelect _ _ _ err
  | CFetch _ _ _ err | CUIDFetch _ _ _ err
  | CIdle _ err | CIdleTerm _ err | CRecv _ err => err
  | CClose _ _ => None
  end.

(** Every open Session has its close among [Run]'s deferred calls. *)
Definition sessions_deferred (s : St) : Prop :=
  ∀ c, c ∈ open_sessions (calls s) -> Some c ∈ defers s.

(** What go-imap promises of a dial: a nil client only with an error. *)
Definition dial_gives_client : Prop :=
  ∀ addr w, fst (fst (DialTLS addr w)) = None -> snd (fst (DialTLS addr w)) ≠ None.

Definition is_query (st : stimulus) : bool :=
  match st with
  | QueryRule => true
  | _ => false
  end.

End Block.

(** ** A mail server to run the block against

    One host with one account and one mailbox.  It follows RFC 3501 where
    the block can tell: [1:*] names every message whatever its flags, a
    fetch of [BODY[]] sets the seen flag unless the mailbox was selected
    read-only, and a UID FETCH answers with the messages whose identifier
    was asked for. *)
Module TestServer.

(** A date and time, as the server writes it in INTERNALDATE and as a
    [time.Time] holds it: the year, the hours of the zone offset, and the
    whole instant as text. *)
Record time := {
  year : Z;
  zone_hour : Z;
  stamp : string;
}.

Inductive field :=
| FNil
| FDate (t : time)
| FText (s : string)
| FNum (n : N).

Record message := {
  m_uid : N;
  m_seen : bool;
  m_date : time;
  m_header : string;
  m_body : string;
}.

Record conn := {
  authed : bool;
  selected : option bool;   (* [Some readonly] once a mailbox is selected *)
  idling : bool;
  closed : bool;
  buffered : nat;           (* responses arrived that [Recv] has yet to take *)
  data : nat;               (* [len(client.Data)] *)
}.

Record server := {
  srv_host : string;
  srv_user : string;
  srv_pass : string;
  srv_mailbox : string;
  messages : list message;
  conns : list conn;        (* client [k] is the [k]-th connection made *)
}.

Definition with_conns (cs : list conn) (w : server) : server :=
  {| srv_host := srv_host w; srv_user := srv_user w; srv_pass := srv_pass w;
     srv_mailbox := srv_mailbox w; messages := messages w; conns := cs |}.

Definition with_messages (ms : list message) (w : server) : server :=
  {| srv_host := srv_host w; srv_user := srv_user w; srv_pass := srv_pass w;
     srv_mailbox := srv_mailbox w; messages := ms; conns := conns w |}.

Definition refused (what : string) : option error := Some (LibError what).

(** A dial that succeeds leaves the server's greeting in the client's
    [Data]. *)
Definition dial (addr : string) (w : server)
  : (option Client * option error) * server :=
  if String.eqb addr (srv_host w) then
    ((Some (length (conns w)), None),
     with_conns (conns w ++ [{| authed := false; selected := None;
                                idling := false; closed := false;
                                buffered := 0; data := 1 |}]) w)
  else ((None, refused "dial"), w).

(** A command on connection [c]: [f] gives the next state of the connection
    when the command is allowed in the current one. *)
Definition on_conn (c : Client) (what : string) (f : conn -> option conn)
  (w : server) : option error * server :=
  match conns w !! c with
  | Some k =>
    if closed k then (refused what, w)
    else match f k with
         | Some k' => (None, with_conns (<[c := k']> (conns w)) w)
         | None => (refused what, w)
         end
  | None => (refused what, w)
  end.

Definition login (c : Client) (user pass : string) (w : server) :=
  on_conn c "login"
    (fun k => if String.eqb user (srv_user w) && String.eqb pass (srv_pass w)
              then Some {| authed := true; selected := selected k;
                           idling := idling k; closed := closed k;
                           buffered := buffered k; data := data k |}
              else None) w.

Definition select (c : Client) (mbox : string) (readonly : bool) (w : server) :=
  on_conn c "select"
    (fun k => if authed k && String.eqb mbox (srv_mailbox w)
              then Some {| authed := authed k; selected := Some readonly;
                           idling := idling k; closed := closed k;
                           buffered := buffered k; data := data k |}
              else None) w.

Definition idle (c : Client) (w : server) :=
  on_conn c "idle"
    (fun k => match selected k with
              | Some _ => if idling k then None
                          else Some {| authed := authed k; selected := selected k;
                                       idling := true; closed := closed k;
                                       buffered := buffered k; data := data k |}
              | None => None
              end) w.

Definition idle_term (c : Client) (w : server) :=
  on_conn c "idle term"
    (fun k => if idling k
              then Some {| authed := authed k; selected := selected k;
                           idling := false; closed := closed k;
                           buffered := buffered k; data := data k |}
              else None) w.

(** [Recv(0)] polls: it hands one buffered response over to [Data], and
    times out when none is buffered. *)
Definition recv (c : Client) (w : server) :=
  on_conn c "imap: operation timeout"
    (fun k => match buffered k with
              | O => None
              | S n => Some {| authed := authed k; selected := selected k;
                               idling := idling k; closed := closed k;
                               buffered := n; data := S (data k) |}
              end) w.

Definition close (c : Client) (flush : bool) (w : server) :=
  on_conn c "close"
    (fun k => Some {| authed := authed k; selected := selected k;
                      idling := idling k; closed := true;
                      buffered := buffered k; data := data k |}) w.

Definition data_len (c : Client) (w : server) : nat :=
  match conns w !! c with
  | Some k => data k
  | None => 0
  end.

(** The server sends connection [c] one more response. *)
Definition notify (c : Client) (w : server) : server :=
  match conns w !! c with
  | Some k =>
    with_conns (<[c := {| authed := authed k; selected := selected k;
                          idling := idling k; closed := closed k;
                          buffered := S (buffered k); data := data k |}]>
                  (conns w)) w
  | None => w
  end.

Definition wanted (seq : SeqSet) (m : message) : bool :=
  seq_all seq || bool_decide (m_uid m ∈ seq_nums seq).

Definition attrs_of (items : list string) (m : message) : gmap string field :=
  list_to_map
    (filter (fun kv => bool_decide (fst kv ∈ items))
       [("UID", FNum (m_uid m)); ("RFC822.HEADER", FText (m_header m));
        ("INTERNALDATE", FDate (m_date m)); ("BODY[]", FText (m_body m))]).

Definition response (items : list string) (m : message) : MessageInfo field :=
  {| UID := m_uid m; Attrs := attrs_of items m |}.

Definition mark_seen (seq : SeqSet) (m : message) : message :=
  if wanted seq m
  then {| m_uid := m_uid m; m_seen := true; m_date := m_date m;
          m_header := m_header m; m_body := m_body m |}
  else m.

(** FETCH and UID FETCH.  The block sends FETCH with [1:*] only and
    UID FETCH with identifiers only, so one reading of the sequence set
    serves both: every message, or the messages with these identifiers. *)
Definition fetch (c : Client) (seq : SeqSet) (items : list string) (w : server)
  : (Command field * option error) * server :=
  match conns w !! c with
  | Some k =>
    match selected k with
    | Some readonly =>
      if closed k || idling k then (({| Data := [] |}, refused "fetch"), w)
      else
        (({| Data := map (response items) (filter (fun m => wanted seq m) (messages w)) |},
          None),
         if negb readonly && bool_decide ("BODY[]" ∈ items)
         then with_messages (map (mark_seen seq) (messages w)) w
         else w)
    | None => (({| Data := [] |}, refused "fetch"), w)
    end
  | None => (({| Data := [] |}, refused "fetch"), w)
  end.

Definition zero_time : time :=
  {| year := 1; zone_hour := 0; stamp := "0001-01-01T00:00:00Z" |}.

(** [imap.AsDateTime] parses the layout [_2-Jan-2006 15:04:05 -0700]: a
    year of four digits and a zone offset of at most 24 hours.  What it
    cannot parse, and what is no date, reads as the zero time. *)
Definition as_date_time (f : field) : time :=
  match f with
  | FDate t =>
    if bool_decide (0 ≤ year t ≤ 9999)%Z && bool_decide (-24 ≤ zone_hour t ≤ 24)%Z
    then t
    else zero_time
  | _ => zero_time
  end.

Definition as_string (f : field) : string :=
  match f with
  | FText s => s
  | _ => ""
  end.

(** encoding/json on an [emailMessage]: the time is the one part that can
    be refused, for a year outside 0..9999 or a zone offset outside
    -23..23 hours. *)
Definition marshal (m : emailMessage time) : string + error :=
  if negb (bool_decide (0 ≤ year (Received m) ≤ 9999)%Z)
  then inr (LibError "Time.MarshalJSON: year outside of range [0,9999]")
  else if negb (bool_decide (-23 ≤ zone_hour (Received m) ≤ 23)%Z)
  then inr (LibError "Time.MarshalJSON: timezone hour outside of range [0,23]")
  else inl ("{timestamp:" +:+ stamp (Received m) +:+ ",email:" +:+ Body m +:+ "}").

#[export] Instance imap : ImapWorld := {|
  World := server;
  Time := time;
  Field := field;
  nilField := FNil;
  DialTLS := dial;
  Login := login;
  Select := select;
  Fetch := fetch;
  UIDFetch := fetch;
  Idle := idle;
  IdleTerm := idle_term;
  Recv := recv;
  ClientData := data_len;
  Close := close;
  AsDateTime := as_date_time;
  AsString := as_string;
  Marshal := marshal;
|}.

Definition at_time (y : Z) (text : string) : time :=
  {| year := y; zone_hour := 0; stamp := text |}.

Definition in_zone (y z : Z) (text : string) : time :=
  {| year := y; zone_hour := z; stamp := text |}.

Definition msg (uid : N) (seen : bool) (t : time) (body : string) : message :=
  {| m_uid := uid; m_seen := seen; m_date := t; m_header := "Subject: hello";
     m_body := body |}.

(** A server holding the given messages in INBOX, and no connection yet.
    The password of the account is the name of its mailbox, so that a rule
    can be accepted whichever of its fields reaches the login. *)
Definition serving (ms : list message) : server :=
  {| srv_host := "imap.example.com"; srv_user := "u"; srv_pass := "INBOX";
     srv_mailbox := "INBOX"; messages := ms; conns := [] |}.

Definition rule (h u p m : string) : gmap string value :=
  {[ "Host" := VString h; "Username" := VString u;
     "Password" := VString p; "Mailbox" := VString m ]}.

(** The rule this server accepts. *)
Definition accepted : gmap string value :=
  rule "imap.example.com" "u" "INBOX" "INBOX".

(** A rule with a password the server refuses. *)
Definition mistyped : gmap string value :=
  rule "imap.example.com" "u" "wrong" "wrong".

(** A rule without its Password field. *)
Definition no_password : gmap string value :=
  {[ "Host" := VString "mail.example.org"; "Username" := VString "someone";
     "Mailbox" := VString "INBOX" ]}.

(** A rule whose four fields differ. *)
Definition archive : gmap string value :=
  rule "imap.example.com" "u" "p" "Archive".

(** A block whose client was just opened on the server, before any
    fetch. *)
Definition connect (ms : list message) : St :=
  match newIMAPClient "imap.example.com" "u" "INBOX" "INBOX" (start (serving ms)) with
  | (Val r, s) => snd (put_blk (set_client (fst r) (blk s)) s)
  | (Panic, s) => s
  end.

Definition read_mail : list message :=
  [msg 7 true (at_time 2014 "2014-05-01T10:00:00Z") "already read"].

Definition two_unread : list message :=
  [msg 7 false (at_time 2014 "2014-05-01T10:00:00Z") "first";
   msg 9 false (at_time 2014 "2014-05-02T10:00:00Z") "second"].

(** Two messages, the first with a date that [imap.AsDateTime] parses and
    [json.Marshal] refuses: its zone offset is 24 hours. *)
Definition late_mail : list message :=
  [msg 7 false (in_zone 2014 24 "2014-05-01T10:00:00+24:00") "late";
   msg 9 false (at_time 2014 "2014-05-02T10:00:00Z") "second"].

(** The state of a block in another state of the server. *)
Definition in_world (w : server) (s : St) : St :=
  {| blk := blk s; world := w; calls := calls s; out := out s;
     errlog := errlog s; replies := replies s; defers := defers s;
     watchers := watchers s; sleeps := sleeps s |}.

(** A block whose client is open and in the push-wait. *)
Definition armed (ms : list message) : St := snd (idle_arm (connect ms)).

(** The same, after the server has sent the client one response. *)
Definition notified (ms : list message) : St :=
  let s := armed ms in
  in_world (notify 0 (world s)) s.

(** The accepted rule with a key the block does not know. *)
Definition with_port : gmap string value :=
  <[ "Port" := VNumber 993 ]> accepted.

End TestServer.

(** ** The skeleton block (the second source file)

    [Skeleton] holds six channels and nothing else; [Run] selects on five
    of them and acts on none but [quit]. *)
Module Skeleton.

(** A message on one of the channels [Run] selects on. *)
Inductive message :=
| on_inrule (msg : value)
| on_quit (msg : value)
| on_in (msg : value)
| on_inpoll (msg : value)
| on_queryrule.

Definition is_quit (m : message) : bool :=
  match m with
  | on_quit _ => true
  | _ => false
  end.

(** [Run] of the skeleton: how it ends, and the messages it has not
    received when it does. *)
Fixpoint Run (arriving : list message) : status * list message :=
  match arriving with
  | [] => (Blocked, [])
  | on_inrule _ :: rest => Run rest
  | on_quit _ :: rest => (Returned, rest)
  | on_in _ :: rest => Run rest
  | on_inpoll _ :: rest => Run rest
  | on_queryrule :: rest => Run rest
  end.

End Skeleton.

(** * Properties *)

(** ** Validation of a rule *)

Lemma ParseRequiredString_str_field (msgI : gmap string value) (key : string) :
  ParseRequiredString msgI key =
  match str_field msgI key with
  | Some v => (v, None)
  | None => ("", Some (ValidationError key))
  end.
Proof.
  unfold ParseRequiredString, str_field.
  destruct (msgI !! key) as [[| | |]|]; done.
Qed.

(** A rule that passes validation: host and username take their fields,
    the password takes the Mailbox field and the mailbox is left alone. *)
Lemma parseAuthRules_valid (msgI : gmap string value) (e : FromEmail) :
  offending msgI = None ->
  ∃ h u p m,
    str_field msgI "Host" = Some h ∧ str_field msgI "Username" = Some u ∧
    str_field msgI "Password" = Some p ∧ str_field msgI "Mailbox" = Some m ∧
    parseAuthRules msgI e =
    ({| host := h; username := u; password := m; mailbox := mailbox e;
        client := client e |}, None).
Proof.
  unfold offending, required, parseAuthRules; simpl.
  rewrite !ParseRequiredString_str_field.
  destruct (str_field msgI "Host") as [h|]; [|done].
  destruct (str_field msgI "Username") as [u|]; [|done].
  destruct (str_field msgI "Password") as [p|]; [|done].
  destruct (str_field msgI "Mailbox") as [m|]; [|done].
  intros _. exists h, u, p, m. done.
Qed.

(** A rule that fails validation: the error names the first offending
    field; the client and the mailbox are untouched, the fields after the
    offending one keep their values, and host and username hold the rule's
    values when they were read before it. *)
Lemma parseAuthRules_invalid (msgI : gmap string value) (e : FromEmail) (key : string) :
  offending msgI = Some key ->
  let e' := fst (parseAuthRules msgI e) in
  snd (parseAuthRules msgI e) = Some (ValidationError key) ∧
  client e' = client e ∧
  mailbox e' = mailbox e ∧
  (key = "Host" -> username e' = username e ∧ password e' = password e) ∧
  (key = "Username" ->
   str_field msgI "Host" = Some (host e') ∧ password e' = password e) ∧
  (key ≠ "Host" -> key ≠ "Username" ->
   str_field msgI "Host" = Some (host e') ∧
   str_field msgI "Username" = Some (username e')).
Proof.
  unfold offending, required, parseAuthRules; simpl.
  rewrite !ParseRequiredString_str_field.
  destruct (str_field msgI "Host") as [h|]; simpl.
  2:{ intros [= <-]. repeat split; done. }
  destruct (str_field msgI "Username") as [u|]; simpl.
  2:{ intros [= <-]. repeat split; done. }
  destruct (str_field msgI "Password") as [p|]; simpl.
  2:{ intros [= <-]. repeat split; done. }
  destruct (str_field msgI "Mailbox") as [m|]; simpl; [done|].
  intros [= <-]. repeat split; done.
Qed.

(** Adding one identifier to a set adds at most one element. *)
Lemma size_add_le (x : N) (X : gset N) : size ({[x]} ∪ X) ≤ S (size X).
Proof.
  rewrite size_union_alt, size_singleton.
  apply le_n_S, subseteq_size. by apply subseteq_difference_l.
Qed.

Section Facts.
Context `{ImapWorld}.

(** Symbolic execution of a piece of the block: unfold the monad and split
    on everything the library may return. *)
Ltac munfold :=
  unfold conn_Login, conn_Select, conn_Fetch, conn_UIDFetch, conn_Idle,
         conn_IdleTerm, conn_Recv, conn_Close, conn_DataLen, imap_DialTLS,
         bind, ret, get_blk, put_blk, Error, send_out, send_reply,
         push_defer, go_idle, sleep, lib, deref in *.
Ltac mrun :=
  munfold; simpl in *;
  repeat (case_match; simplify_eq/=; munfold; simpl in * ).

(** ** The two loops of [getEmails] *)

Lemma fold_left_snoc {A B} (f : A -> B) (l : list A) (acc : list B) :
  fold_left (fun ys x => ys ++ [f x]) l acc = acc ++ map f l.
Proof.
  revert acc. induction l as [|x l IH]; intros acc; simpl.
  - by rewrite app_nil_r.
  - rewrite IH. by rewrite <- app_assoc.
Qed.

Lemma emails_of_map (fCmd : Command Field) :
  emails_of fCmd = map email_of (Data fCmd).
Proof. unfold emails_of. by rewrite fold_left_snoc. Qed.

Lemma uid_fold_bounds (l : list (MessageInfo Field)) (seq : SeqSet) :
  let seq' := fold_left (fun seq rsp => AddNum seq (UID rsp)) l seq in
  seq_all seq' = seq_all seq ∧
  size (seq_nums seq') ≤ size (seq_nums seq) + length l.
Proof.
  revert seq. induction l as [|rsp l IH]; intros seq; simpl.
  - split; [done | lia].
  - destruct (IH (AddNum seq (UID rsp))) as [Hall Hsize]. simpl in *.
    split; [done|].
    pose proof (size_add_le (UID rsp) (seq_nums seq)). lia.
Qed.

(** The set sent to the server names no more identifiers than the sweep
    returned responses, and is not the [1:*] set. *)
Lemma uid_seq_size (cmd : Command Field) :
  seq_all (uid_seq cmd) = false ∧
  size (seq_nums (uid_seq cmd)) ≤ length (Data cmd).
Proof.
  destruct (uid_fold_bounds (Data cmd) NewSeqSet) as [Hall Hsize].
  split; [exact Hall|]. simpl in Hsize. exact Hsize.
Qed.

(** ** The emission loop *)

Lemma emit_emails_spec (emails : list (emailMessage Time)) (s : St) :
  emit_emails emails s =
  (Val tt,
   {| blk := blk s; world := world s; calls := calls s;
      out := out s ++ omap encoded emails;
      errlog := errlog s ++ omap refusal emails;
      replies := replies s; defers := defers s; watchers := watchers s;
      sleeps := sleeps s |}).
Proof.
  revert s. induction emails as [|email rest IH]; intros s; simpl.
  - rewrite !app_nil_r. by destruct s.
  - unfold encoded, refusal.
    destruct (Marshal email) as [emailStr|err]; munfold; simpl;
      rewrite IH; simpl; by rewrite <- app_assoc.
Qed.

Lemma omap_length_le {A B} (f : A -> option B) (l : list A) :
  length (omap f l) ≤ length l.
Proof.
  induction l as [|x l IH]; [done|].
  change (omap f (x :: l)) with
    (match f x with Some y => y :: omap f l | None => omap f l end).
  destruct (f x); simpl; lia.
Qed.

Lemma omap_length_all {A B} (f : A -> option B) (l : list A) :
  Forall (fun x => is_Some (f x)) l -> length (omap f l) = length l.
Proof.
  induction 1 as [|x l [y Hy] _ IH]; [done|].
  change (omap f (x :: l)) with
    (match f x with Some y => y :: omap f l | None => omap f l end).
  rewrite Hy. simpl. by rewrite IH.
Qed.

(** Every record is either encoded or refused. *)
Lemma encoded_or_refused (emails : list (emailMessage Time)) :
  length (omap encoded emails) + length (omap refusal emails) = length emails.
Proof.
  induction emails as [|email rest IH]; [done|].
  change (omap encoded (email :: rest)) with
    (match encoded email with Some y => y :: omap encoded rest
                            | None => omap encoded rest end).
  change (omap refusal (email :: rest)) with
    (match refusal email with Some y => y :: omap refusal rest
                            | None => omap refusal rest end).
  unfold encoded at 1, refusal at 1.
  destruct (Marshal email); simpl; lia.
Qed.

(** ** [fetchUnread] *)

(** What one call of [fetchUnread] on a live client does, by the answers of
    the server to the sweep and to the batched retrieval. *)
Lemma fetchUnread_run (s : St) (c : Client) :
  client (blk s) = Some c ->
  let sweep := Fetch c (Add_1_star NewSeqSet) ["RFC822.HEADER"; "UID"] (world s) in
  let batch := UIDFetch c (uid_seq (fst (fst sweep)))
                 ["INTERNALDATE"; "BODY[]"; "UID"; "RFC822.HEADER"] (snd sweep) in
  let emails := map email_of (Data (fst (fst batch))) in
  let r := fetchUnread s in
  match snd (fst sweep), snd (fst batch) with
  | Some err, _ =>
    fst r = Val (Some err) ∧ out (snd r) = out s ∧ errlog (snd r) = errlog s
  | None, Some err =>
    fst r = Val (Some err) ∧ out (snd r) = out s ∧ errlog (snd r) = errlog s
  | None, None =>
    fst r = Val None ∧
    out (snd r) = out s ++ omap encoded emails ∧
    errlog (snd r) = errlog s ++ omap refusal emails
  end.
Proof.
  intros Hc. simpl.
  unfold fetchUnread, findUnreadEmails, getEmails. munfold; simpl.
  rewrite Hc; simpl.
  destruct (Fetch c _ _ (world s)) as [[cmd e1] w1]; simpl.
  destruct e1 as [err|]; simpl; [done|]. rewrite Hc; simpl.
  destruct (UIDFetch c (uid_seq cmd) _ w1) as [[fCmd e2] w2]; simpl.
  destruct e2 as [err|]; simpl; [done|].
  by rewrite emit_emails_spec, emails_of_map.
Qed.

(** C4 (amended).  [fetchUnread] is all-or-nothing in its two requests: when
    the header sweep or the batched retrieval fails it returns that error,
    sends nothing and reports nothing itself; when both succeed it returns
    no error and sends, in the order of the server's response, one payload
    for every retrieved record that serializes (one per record when all of
    them do), while every record that does not serialize is reported, in
    the same order, and skipped.  The retrieval asks for no more
    identifiers than the sweep returned responses and no more payloads are
    sent than records were retrieved; so, when the server answers with at
    most one record per identifier asked for, the payloads are no more
    than the responses of the sweep. *)
Theorem fetchUnread_all_or_nothing (s : St) (c : Client) :
  client (blk s) = Some c ->
  let sweep := Fetch c (Add_1_star NewSeqSet) ["RFC822.HEADER"; "UID"] (world s) in
  let asked := uid_seq (fst (fst sweep)) in
  let batch := UIDFetch c asked
                 ["INTERNALDATE"; "BODY[]"; "UID"; "RFC822.HEADER"] (snd sweep) in
  let records := Data (fst (fst batch)) in
  let r := fetchUnread s in
  let events := omap encoded (map email_of records) in
  match snd (fst sweep), snd (fst batch) with
  | Some err, _ =>
    fst r = Val (Some err) ∧ out (snd r) = out s ∧ errlog (snd r) = errlog s
  | None, Some err =>
    fst r = Val (Some err) ∧ out (snd r) = out s ∧ errlog (snd r) = errlog s
  | None, None =>
    fst r = Val None ∧
    out (snd r) = out s ++ events ∧
    errlog (snd r) = errlog s ++ omap refusal (map email_of records) ∧
    length events + length (omap refusal (map email_of records)) = length records ∧
    (Forall (fun email => is_Some (encoded email)) (map email_of records) ->
     length events = length records) ∧
    size (seq_nums asked) ≤ length (Data (fst (fst sweep))) ∧
    length events ≤ length records ∧
    (length records ≤ size (seq_nums asked) ->
     length events ≤ length (Data (fst (fst sweep))))
  end.
Proof.
  intros Hc sweep asked batch records r events.
  pose proof (fetchUnread_run s c Hc) as Hrun. simpl in Hrun.
  fold sweep in Hrun. fold asked in Hrun. fold batch in Hrun. fold r in Hrun.
  destruct (snd (fst sweep)) as [err|]; [tauto|].
  destruct (snd (fst batch)) as [err|]; [tauto|].
  destruct Hrun as (Hr & Hout & Herr).
  assert (Hasked : size (seq_nums asked) ≤ length (Data (fst (fst sweep))))
    by apply uid_seq_size.
  assert (Hevents : length events ≤ length records).
  { unfold events. etrans; [apply omap_length_le|]. by rewrite length_map. }
  split_and!;
    [exact Hr | exact Hout | exact Herr | | | exact Hasked | exact Hevents | lia].
  { unfold events. rewrite encoded_or_refused. by rewrite length_map. }
  intros Hall. unfold events. rewrite omap_length_all by exact Hall.
  by rewrite length_map.
Qed.

(** C7.  When the sweep and the retrieval succeed, [fetchUnread] returns
    no error whatever [json.Marshal] does: a message that does not
    serialize is reported and skipped, and every other message of the same
    fetch is sent, in order. *)
Theorem fetchUnread_skips_unserializable (s : St) (c : Client) :
  client (blk s) = Some c ->
  let sweep := Fetch c (Add_1_star NewSeqSet) ["RFC822.HEADER"; "UID"] (world s) in
  let batch := UIDFetch c (uid_seq (fst (fst sweep)))
                 ["INTERNALDATE"; "BODY[]"; "UID"; "RFC822.HEADER"] (snd sweep) in
  snd (fst sweep) = None ->
  snd (fst batch) = None ->
  let emails := map email_of (Data (fst (fst batch))) in
  let r := fetchUnread s in
  fst r = Val None ∧
  out (snd r) = out s ++ omap encoded emails ∧
  errlog (snd r) = errlog s ++ omap refusal emails ∧
  (∀ email emailStr,
     email ∈ emails -> Marshal email = inl emailStr -> emailStr ∈ out (snd r)) ∧
  (∀ email err,
     email ∈ emails -> Marshal email = inr err -> err ∈ errlog (snd r)).
Proof.
  intros Hc sweep batch Hsweep Hbatch emails r.
  pose proof (fetchUnread_run s c Hc) as Hrun. simpl in Hrun.
  fold sweep in Hrun. fold batch in Hrun. fold r in Hrun.
  rewrite Hsweep, Hbatch in Hrun. fold emails in Hrun.
  destruct Hrun as (Hr & Hout & Herr).
  repeat split; [exact Hr | exact Hout | exact Herr | |].
  - intros email emailStr Hin Hm. rewrite Hout.
    apply elem_of_app. right. apply list_elem_of_omap.
    exists email. split; [exact Hin|]. unfold encoded. by rewrite Hm.
  - intros email err Hin Hm. rewrite Herr.
    apply elem_of_app. right. apply list_elem_of_omap.
    exists email. split; [exact Hin|]. unfold refusal. by rewrite Hm.
Qed.

(** ** The watcher *)


(** Arming the wait sends nothing and calls [sleep] for nobody. *)
Lemma idle_arm_quiet (s : St) :
  out (snd (idle_arm s)) = out s ∧ sleeps (snd (idle_arm s)) = sleeps s.
Proof. unfold idle_arm. mrun; done. Qed.

Lemma before_loop_no_receiver (w : watcher) (snd rcv : holder) :
  before_loop w -> rendezvous w snd rcv = false.
Proof.
  intros (Hpc & Hsl & Htk). unfold rendezvous.
  destruct rcv as [|i]; simpl.
  - destruct (pc w); try done; by rewrite andb_false_r.
  - by rewrite andb_false_r.
Qed.

Lemma idle_step_before_loop (ev : event) (w w' : watcher) (s s' : St) :
  before_loop w ->
  idle_step ev w s = Some (w', s') ->
  before_loop w' ∧ out s' = out s ∧ sleeps s' = sleeps s.
Proof.
  intros Hw Hstep. pose proof Hw as (Hpc & Hsl & Htk).
  destruct ev as [| |snd rcv|]; simpl in Hstep.
  - inversion Hstep; subst. unfold before_loop, tick; simpl.
    by rewrite Hsl, Htk.
  - destruct (pc w) eqn:Epc; try discriminate.
    pose proof (idle_arm_quiet s) as [Ho Hs].
    destruct (idle_arm s) as [r s1]. inversion Hstep; subst.
    simpl in *. repeat split; try done.
    destruct r as [[|]|]; simpl; done.
  - by rewrite (before_loop_no_receiver w snd rcv Hw) in Hstep.
  - destruct (pc w); try discriminate. done.
Qed.

(** Once in the send [poll <- 0], the watcher stays there: time may pass,
    but no event moves it. *)
Lemma kick_is_final (evs : list event) (w : watcher) (s : St) :
  pc w = AtKick -> sleepers w = [] ->
  pc (fst (idle_run evs w s)) = AtKick ∧ snd (idle_run evs w s) = s.
Proof.
  revert w. induction evs as [|ev evs IH]; intros w Hpc Hsl; simpl; [done|].
  destruct ev as [| |snd rcv|]; simpl.
  - apply IH; simpl; [done | by rewrite Hsl].
  - rewrite Hpc. by apply IH.
  - assert (rendezvous w snd rcv = false) as ->; [|by apply IH].
    unfold rendezvous. destruct rcv; simpl; rewrite ?Hpc;
      by rewrite andb_false_r.
  - rewrite Hpc. by apply IH.
Qed.

(** On a client whose IDLE succeeds the watcher arms the wait and then
    blocks in the send, whatever happens next. *)
Lemma watcher_blocks_in_kick (evs : list event) (s : St) (c : Client) :
  client (blk s) = Some c ->
  fst (Idle c (world s)) = None ->
  pc (fst (idle_run (RunArm :: evs) new_watcher s)) = AtKick.
Proof.
  intros Hc Hidle. simpl. unfold idle_arm. munfold. simpl. rewrite Hc. simpl.
  destruct (Idle c (world s)) as [err w1]. simpl in Hidle. subst err. simpl.
  by apply kick_is_final.
Qed.

(** C9 (the code).  Whatever the schedule and the server, a watcher never
    reaches the select of its loop: once the wait is armed it stays in the
    send [poll <- 0], for which no receiver exists.  So the ticker is never
    made, no poll tick is ever taken, [sleep] is never called and nothing
    is sent on [e.out]. *)
Theorem watcher_never_enters_loop (evs : list event) (s : St) :
  let r := idle_run evs new_watcher s in
  pc (fst r) ≠ AtSelect ∧
  sleepers (fst r) = [] ∧
  ticker (fst r) = None ∧
  out (snd r) = out s ∧
  sleeps (snd r) = sleeps s.
Proof.
  assert (Hgen : ∀ evs w s, before_loop w ->
            before_loop (fst (idle_run evs w s)) ∧
            out (snd (idle_run evs w s)) = out s ∧
            sleeps (snd (idle_run evs w s)) = sleeps s).
  { clear evs s. induction evs as [|ev evs IH]; intros w s Hw; simpl; [done|].
    destruct (idle_step ev w s) as [[w1 s1]|] eqn:Hstep; [|by apply IH].
    destruct (idle_step_before_loop ev w w1 s s1 Hw Hstep) as (Hw1 & Ho & Hs).
    destruct (IH w1 s1 Hw1) as (Hb & Ho' & Hs').
    split; [exact Hb|]. split; congruence. }
  destruct (Hgen evs new_watcher s) as ((Hpc & Hsl & Htk) & Ho & Hs);
    [by repeat split|].
  done.
Qed.

(** ** The control loop *)

(** C10 (the code).  A shutdown signal that reaches a block to which no
    rule was ever applied makes [Run] call [Close] through the nil client
    of [NewFromEmail]: the loop panics, in every world. *)
Theorem quit_before_any_rule_panics (w : World) :
  fst (Run [Quit] (start w)) = Panic ∧
  calls (snd (Run [Quit] (start w))) = [].
Proof. done. Qed.

(** *** Sessions along the history of calls *)

Lemma open_sessions_app (log new : list call) :
  open_sessions (log ++ new) = fold_left session_step new (open_sessions log).
Proof. unfold open_sessions. apply fold_left_app. Qed.

Lemma fold_session_fetches (new : list call) (open : list Client) :
  Forall (fun k => is_fetch k = true) new ->
  fold_left session_step new open = open.
Proof.
  revert open. induction new as [|k new IH]; intros open Hall; [done|].
  inversion Hall as [|? ? Hk Hrest]; subst. simpl.
  rewrite IH by done. by destruct k.
Qed.

(** [fetchUnread] only fetches: it closes nothing, selects nothing, and
    leaves the block and the deferred calls as they are. *)
Lemma fetchUnread_frame (s : St) :
  let s' := snd (fetchUnread s) in
  blk s' = blk s ∧ defers s' = defers s ∧ watchers s' = watchers s ∧
  replies s' = replies s ∧
  ∃ new, calls s' = calls s ++ new ∧ Forall (fun k => is_fetch k = true) new.
Proof.
  unfold fetchUnread, findUnreadEmails, getEmails. munfold; simpl.
  destruct (client (blk s)) as [c|] eqn:Hc; simpl.
  2:{ repeat split. exists []. by rewrite app_nil_r. }
  destruct (Fetch c _ _ (world s)) as [[cmd e1] w1]; simpl.
  destruct e1 as [err|]; simpl.
  { repeat split. eexists. split; [done|]. by repeat constructor. }
  rewrite Hc; simpl.
  destruct (UIDFetch c (uid_seq cmd) _ w1) as [[fCmd e2] w2]; simpl.
  destruct e2 as [err|]; simpl.
  { repeat split. eexists. rewrite <- app_assoc. split; [done|].
    by repeat constructor. }
  rewrite emit_emails_spec; simpl.
  repeat split. eexists. rewrite <- app_assoc. split; [done|].
  by repeat constructor.
Qed.

(** Case analysis of one run of [Run_inrule]: the outcome of validation,
    then what the library answers at each stage of the open, then the
    outcome of the initial fetch. *)
Ltac inrule_cases s :=
  unfold Run_inrule, newIMAPClient; munfold; simpl;
  let e := fresh "e" in let perr := fresh "perr" in
  destruct (parseAuthRules _ (blk s)) as [e perr] eqn:Hparse; simpl;
  destruct perr as [perr|]; simpl;
  [ | destruct (DialTLS _ _) as [[conn derr] w1] eqn:Hdial; simpl;
      destruct derr as [derr|]; simpl;
      [ | destruct conn as [c|]; simpl;
          [ destruct (Login c _ _ _) as [[lerr|] w2] eqn:Hlogin; simpl;
            [ | destruct (Select c _ _ _) as [[serr|] w3] eqn:Hselect; simpl;
                [ | match goal with
                    | |- context [fetchUnread ?s3] =>
                      pose proof (fetchUnread_frame s3) as Hframe;
                      destruct (fetchUnread s3) as [[[ferr|]|] s4] eqn:Hfetch;
                      simpl in Hframe;
                      destruct Hframe as (Hblk & Hdefers & Hwatchers & Hreplies
                                          & fetched & Hcalls & Hfetched);
                      simpl
                    end ] ]
          | ] ] ].

Lemma not_close_of_fetch (new : list call) :
  Forall (fun k => is_fetch k = true) new ->
  forallb (fun k => negb (is_close k)) new = true.
Proof.
  induction 1 as [|k new Hk _ IH]; [done|]. simpl. rewrite IH.
  by destruct k.
Qed.

(** C2 (amended).  Processing a rule makes no [Close] call: every Session
    that was open before the rule is still open after it.  When the select
    of the rule's open succeeds, the new Session is one more open Session,
    it becomes [e.client], and its close is deferred to the return of
    [Run]. *)
Theorem rule_closes_no_session (msgI : gmap string value) (s : St) :
  let s' := snd (Run_inrule msgI s) in
  ∃ new,
    calls s' = calls s ++ new ∧
    forallb (fun k => negb (is_close k)) new = true ∧
    (∀ c, c ∈ open_sessions (calls s) -> c ∈ open_sessions (calls s')) ∧
    (∀ c mbox ro,
       CSelect c mbox ro None ∈ new ->
       open_sessions (calls s') = c :: open_sessions (calls s) ∧
       client (blk s') = Some c ∧
       defers s' = Some c :: defers s).
Proof.
  inrule_cases s.
  all: try rewrite Hblk; try rewrite Hdefers; try rewrite Hcalls; simpl.
  all: rewrite <- ?app_assoc; simpl.
  all: eexists; split; [try reflexivity; by rewrite app_nil_r|].
  all: rewrite ?open_sessions_app; simpl;
       rewrite ?(fold_session_fetches fetched) by done.
  all: split; [by rewrite ?not_close_of_fetch|].
  all: split; [intros c0 Hc0; try done; by apply elem_of_cons; right|].
  all: intros c0 mbox ro Hin.
  all: repeat (apply elem_of_cons in Hin as [Hin|Hin]; simplify_eq).
  all: try by apply elem_of_nil in Hin.
  all: try done.
  all: rewrite Forall_forall in Hfetched; by apply Hfetched in Hin.
Qed.

(** C5 (amended).  A rule that fails validation is reported under the name
    of its first offending field and reaches neither the library nor the
    client: no call is made, the world, the client, the deferred closes and
    the watchers are as before.  The credentials are not kept as a whole:
    the mailbox and the fields after the offending one keep their values,
    while host and username, when read before it, now hold the rule's. *)
Theorem invalid_rule_opens_nothing (msgI : gmap string value) (s : St) (key : string) :
  offending msgI = Some key ->
  let r := Run_inrule msgI s in
  let s' := snd r in
  fst r = Val tt ∧
  errlog s' = errlog s ++ [ValidationError key] ∧
  calls s' = calls s ∧ world s' = world s ∧ out s' = out s ∧
  defers s' = defers s ∧ watchers s' = watchers s ∧
  client (blk s') = client (blk s) ∧
  mailbox (blk s') = mailbox (blk s) ∧
  (key = "Host" ->
   username (blk s') = username (blk s) ∧ password (blk s') = password (blk s)) ∧
  (key = "Username" ->
   str_field msgI "Host" = Some (host (blk s')) ∧
   password (blk s') = password (blk s)) ∧
  (key ≠ "Host" -> key ≠ "Username" ->
   str_field msgI "Host" = Some (host (blk s')) ∧
   str_field msgI "Username" = Some (username (blk s'))).
Proof.
  intros Hbad.
  destruct (parseAuthRules_invalid msgI (blk s) key Hbad)
    as (Herr & Hclient & Hmailbox & Hfields).
  unfold Run_inrule. munfold; simpl. rewrite Herr; simpl.
  destruct Hfields as (Fhost & Fuser & Frest).
  split_and!; try done; intros; tauto.
Qed.

(** C6 (amended).  When [newIMAPClient] fails for the credentials of a
    valid rule, it returns the error of the stage that failed next to the
    handle that the dial produced, and asks the library for nothing after
    the failing call.  When the dial failed, the handle is whatever the dial
    returned.  When the login failed, it is the connected client, not
    authenticated: the dial and the refused login are the only calls.
    When the select failed, it is the connected client, authenticated and
    with no mailbox selected: the dial, the granted login and the refused
    select are the only calls.  In no case is the client closed.  [Run]
    stores that handle in [e.client], reports the error, and goes back to
    its select: no close is made or deferred, no message is fetched and no
    watcher is started. *)
Theorem failed_open_installs_handle (msgI : gmap string value) (s : St)
    (handle : option Client) (err : error) :
  offending msgI = None ->
  let e := fst (parseAuthRules msgI (blk s)) in
  fst (newIMAPClient (host e) (username e) (password e) (mailbox e)
         (snd (put_blk e s))) = Val (handle, Some err) ->
  let s' := snd (Run_inrule msgI s) in
  let d := DialTLS (host e) (world s) in
  handle = fst (fst d) ∧
  client (blk s') = handle ∧
  errlog s' = errlog s ++ [err] ∧
  defers s' = defers s ∧ watchers s' = watchers s ∧ out s' = out s ∧
  forallb (fun k => negb (is_close k) && negb (is_fetch k))
    (drop (length (calls s)) (calls s')) = true ∧
  match snd (fst d) with
  | Some derr =>
    err = derr ∧
    calls s' = calls s ++ [CDialTLS (host e) handle (Some derr)] ∧
    world s' = snd d
  | None =>
    ∃ c, handle = Some c ∧
      let l := Login c (username e) (password e) (snd d) in
      match fst l with
      | Some lerr =>
        err = lerr ∧
        calls s' = calls s ++ [CDialTLS (host e) (Some c) None;
                               CLogin c (username e) (password e) (Some lerr)] ∧
        world s' = snd l
      | None =>
        let m := Select c (mailbox e) true (snd l) in
        fst m = Some err ∧
        calls s' = calls s ++ [CDialTLS (host e) (Some c) None;
                               CLogin c (username e) (password e) None;
                               CSelect c (mailbox e) true (Some err)] ∧
        world s' = snd m
      end
  end.
Proof.
  intros Hok e Hopen s' d. subst e s' d.
  destruct (parseAuthRules_valid msgI (blk s) Hok)
    as (h & u & p & m & _ & _ & _ & _ & Hp).
  unfold Run_inrule, newIMAPClient in *. munfold. rewrite Hp in *. simpl in *.
  destruct (DialTLS h (world s)) as [[conn derr] w1]; simpl in *.
  destruct derr as [derr|]; simpl in *.
  { simplify_eq. rewrite drop_app_length. by split_and!. }
  destruct conn as [c|]; simpl in *; [|done].
  destruct (Login c u m w1) as [[lerr|] w2] eqn:Hlogin; simpl in *.
  { simplify_eq. rewrite <- app_assoc, drop_app_length. simpl.
    split_and!; try done. exists c. rewrite Hlogin. by split_and!. }
  destruct (Select c (mailbox (blk s)) true w2) as [[serr|] w3] eqn:Hselect;
    simpl in *; [|done].
  simplify_eq. rewrite <- !app_assoc, drop_app_length. simpl.
  split_and!; try done. exists c. rewrite Hlogin. simpl. rewrite Hselect.
  by split_and!.
Qed.

End Facts.

(** ** The block against the server *)

Import TestServer.

(** C1 (the code).  The rule [archive] passes validation, yet the stored
    password is the rule's Mailbox field and the mailbox is still the
    factory default; a query after the rule answers with that pair. *)
Theorem password_takes_mailbox_field :
  let e := fst (parseAuthRules archive NewFromEmail) in
  let s := snd (Run [InRule archive; QueryRule] (start (serving []))) in
  offending archive = None ∧
  snd (parseAuthRules archive NewFromEmail) = None ∧
  password e = "Archive" ∧
  mailbox e = "INBOX" ∧
  snapshot e !! "Password" = Some "Archive" ∧
  snapshot e !! "Mailbox" = Some "INBOX" ∧
  (λ m : gmap string string, (m !! "Password", m !! "Mailbox")) <$> replies s =
    [(Some "Archive", Some "INBOX")].
Proof. vm_compute. split_and!; reflexivity. Qed.

(** C2, refuted: after two accepted rules the Session of the first is
    still open next to the Session of the second. *)
Lemma two_rules_two_sessions :
  let s := snd (Run [InRule accepted; InRule accepted] (start (serving []))) in
  offending accepted = None ∧
  errlog s = [] ∧
  client (blk s) = Some 1 ∧
  open_sessions (calls s) = [1; 0] ∧
  closed <$> conns (world s) = [false; false].
Proof. vm_compute. split_and!; reflexivity. Qed.

(** C3 (the code).  A mailbox whose only message is already read: the
    sweep asks for [1:*], the message comes back and is sent on [e.out].
    Its flags are as before. *)
Theorem seen_message_is_emitted :
  let s := connect read_mail in
  let r := fetchUnread s in
  m_seen <$> messages (world s) = [true] ∧
  fst r = Val None ∧
  out (snd r) = ["{timestamp:2014-05-01T10:00:00Z,email:already read}"] ∧
  calls (snd r) =
    calls s ++
    [CFetch 0 (Add_1_star NewSeqSet) ["RFC822.HEADER"; "UID"] None;
     CUIDFetch 0 (AddNum NewSeqSet 7)
       ["INTERNALDATE"; "BODY[]"; "UID"; "RFC822.HEADER"] None] ∧
  messages (world (snd r)) = messages (world s).
Proof. vm_compute. split_and!; reflexivity. Qed.

(** C4, refuted: both requests succeed and two records are retrieved, but
    one payload is sent.  The first record carries a date that
    [imap.AsDateTime] reads as it stands, in a zone 24 hours from UTC, and
    that [json.Marshal] refuses; it is reported and skipped. *)
Lemma unserializable_record_not_emitted :
  let s := connect late_mail in
  let sweep := Fetch 0 (Add_1_star NewSeqSet) ["RFC822.HEADER"; "UID"] (world s) in
  let batch := UIDFetch 0 (uid_seq (fst (fst sweep)))
                 ["INTERNALDATE"; "BODY[]"; "UID"; "RFC822.HEADER"] (snd sweep) in
  let r := fetchUnread s in
  snd (fst sweep) = None ∧
  snd (fst batch) = None ∧
  length (Data (fst (fst batch))) = 2 ∧
  (λ rsp, zone_hour (Received (email_of rsp))) <$> Data (fst (fst batch)) = [24; 0]%Z ∧
  fst r = Val None ∧
  out s = [] ∧
  out (snd r) = ["{timestamp:2014-05-02T10:00:00Z,email:second}"] ∧
  errlog s = [] ∧
  errlog (snd r) =
    [LibError "Time.MarshalJSON: timezone hour outside of range [0,23]"].
Proof. vm_compute. split_and!; reflexivity. Qed.

(** C4 (amended), at the mailbox [late_mail]. *)
Lemma fetchUnread_all_or_nothing_witness :
  let s := connect late_mail in
  let r := fetchUnread s in
  client (blk s) = Some 0 ∧
  fst r = Val None ∧
  out (snd r) = out s ++ ["{timestamp:2014-05-02T10:00:00Z,email:second}"] ∧
  errlog (snd r) =
    errlog s ++ [LibError "Time.MarshalJSON: timezone hour outside of range [0,23]"].
Proof.
  pose proof (fetchUnread_all_or_nothing (connect late_mail) 0
                ltac:(vm_compute; reflexivity)) as W.
  cbv zeta in W.
  change (snd (fst (Fetch 0 (Add_1_star NewSeqSet) ["RFC822.HEADER"; "UID"]
                      (world (connect late_mail))))) with (@None error) in W.
  destruct W as (W1 & W2 & W3 & _).
  vm_compute in W1, W2, W3. vm_compute.
  split_and!; first [assumption | reflexivity].
Defined.

(** C5, refuted: a rule without Password, arriving after an accepted rule,
    changes the stored host and username. *)
Lemma invalid_rule_changes_credentials :
  let s := snd (Run_inrule accepted (start (serving []))) in
  let s' := snd (Run_inrule no_password s) in
  offending no_password = Some "Password" ∧
  errlog s' = [ValidationError "Password"] ∧
  host (blk s) = "imap.example.com" ∧
  host (blk s') = "mail.example.org" ∧
  username (blk s) = "u" ∧
  username (blk s') = "someone" ∧
  snapshot (blk s') ≠ snapshot (blk s).
Proof.
  split_and!; try (vm_compute; reflexivity).
  intros Heq. apply (f_equal (fun m => m !! "Host")) in Heq.
  vm_compute in Heq. discriminate.
Qed.

(** C5 (amended), at the rule [no_password] after an accepted rule. *)
Lemma invalid_rule_opens_nothing_witness :
  let s := snd (Run_inrule accepted (start (serving []))) in
  let s' := snd (Run_inrule no_password s) in
  offending no_password = Some "Password" ∧
  errlog s' = errlog s ++ [ValidationError "Password"] ∧
  calls s' = calls s ∧
  client (blk s') = client (blk s) ∧
  mailbox (blk s') = mailbox (blk s).
Proof.
  pose proof (invalid_rule_opens_nothing no_password
                (snd (Run_inrule accepted (start (serving []))))
                "Password" ltac:(vm_compute; reflexivity)) as W.
  destruct W as (_ & W1 & W2 & _ & _ & _ & _ & W3 & W4 & _).
  vm_compute in W1, W2, W3, W4. vm_compute. split_and!; first [assumption | reflexivity].
Defined.

(** C6, refuted: a refused login returns the connected client next to the
    error, and [Run] keeps it as [e.client], open. *)
Lemma failed_login_returns_client :
  let s := start (serving []) in
  let s' := snd (Run_inrule mistyped s) in
  fst (newIMAPClient "imap.example.com" "u" "wrong" "INBOX" s) =
    Val (Some 0, Some (LibError "login")) ∧
  client (blk s) = None ∧
  client (blk s') = Some 0 ∧
  closed <$> conns (world s') = [false].
Proof. vm_compute. split_and!; reflexivity. Qed.

(** C6 (amended), at the rule [mistyped]: the login is refused, and the
    client that [Run] keeps is connected, not authenticated and open. *)
Lemma failed_open_installs_handle_witness :
  let s := start (serving []) in
  let e := fst (parseAuthRules mistyped (blk s)) in
  let s' := snd (Run_inrule mistyped s) in
  offending mistyped = None ∧
  fst (newIMAPClient (host e) (username e) (password e) (mailbox e)
         (snd (put_blk e s))) = Val (Some 0, Some (LibError "login")) ∧
  client (blk s') = Some 0 ∧
  errlog s' = [LibError "login"] ∧
  defers s' = [] ∧
  watchers s' = 0 ∧
  calls s' = [CDialTLS "imap.example.com" (Some 0) None;
              CLogin 0 "u" "wrong" (Some (LibError "login"))] ∧
  (λ k, (authed k, selected k, closed k)) <$> conns (world s') =
    [(false, None, false)].
Proof.
  pose proof (failed_open_installs_handle mistyped (start (serving []))
                (Some 0) (LibError "login")
                ltac:(vm_compute; reflexivity)
                ltac:(vm_compute; reflexivity)) as W.
  cbv zeta in W.
  destruct W as (_ & W1 & W2 & W3 & W4 & _ & _ & W5).
  vm_compute in W1, W2, W3, W4, W5.
  destruct W5 as (c & Wc & W5). injection Wc as <-.
  vm_compute in W5. destruct W5 as (_ & W5 & _).
  vm_compute.
  split_and!; first [assumption | reflexivity].
Defined.

(** At the select stage: on a server whose mailbox is not the default one
    the login is granted and the select refused.  The client that [Run]
    keeps is authenticated, has no mailbox selected and is open. *)
Example failed_select_keeps_authenticated_client :
  let w := {| srv_host := "imap.example.com"; srv_user := "u";
              srv_pass := "Archive"; srv_mailbox := "Archive";
              messages := []; conns := [] |} in
  let s' := snd (Run_inrule archive (start w)) in
  offending archive = None ∧
  client (blk s') = Some 0 ∧
  errlog s' = [LibError "select"] ∧
  calls s' = [CDialTLS "imap.example.com" (Some 0) None;
              CLogin 0 "u" "Archive" None;
              CSelect 0 "INBOX" true (Some (LibError "select"))] ∧
  (λ k, (authed k, selected k, closed k)) <$> conns (world s') =
    [(true, None, false)] ∧
  defers s' = [] ∧ watchers s' = 0.
Proof. vm_compute. split_and!; reflexivity. Qed.

(** C7, at the mailbox [late_mail]: the first message is refused by
    [json.Marshal], the second is sent, and no error is returned. *)
Lemma fetchUnread_skips_unserializable_witness :
  let s := connect late_mail in
  let sweep := Fetch 0 (Add_1_star NewSeqSet) ["RFC822.HEADER"; "UID"] (world s) in
  let batch := UIDFetch 0 (uid_seq (fst (fst sweep)))
                 ["INTERNALDATE"; "BODY[]"; "UID"; "RFC822.HEADER"] (snd sweep) in
  let r := fetchUnread s in
  client (blk s) = Some 0 ∧
  snd (fst sweep) = None ∧
  snd (fst batch) = None ∧
  fst r = Val None ∧
  out (snd r) = ["{timestamp:2014-05-02T10:00:00Z,email:second}"] ∧
  errlog (snd r) =
    [LibError "Time.MarshalJSON: timezone hour outside of range [0,23]"].
Proof.
  pose proof (fetchUnread_skips_unserializable (connect late_mail) 0
                ltac:(vm_compute; reflexivity)
                ltac:(vm_compute; reflexivity)
                ltac:(vm_compute; reflexivity)) as W.
  destruct W as (W1 & W2 & W3 & _).
  vm_compute in W1, W2, W3. vm_compute. split_and!; first [assumption | reflexivity].
Defined.

(** *** The watcher and the shutdown on the server *)

(** The watcher started on an open client arms the wait and is then in the
    send of line 71, say eleven seconds and a reset tick later. *)
Example watcher_blocked_on_server :
  let r := idle_run (RunArm :: replicate 11 Second ++
                     [Pass (Sleeper 0) Watcher; Pass Watcher Watcher; ResetTick])
             new_watcher (connect two_unread) in
  pc (fst r) = AtKick ∧
  calls (snd r) = calls (connect two_unread) ++ [CIdle 0 None] ∧
  out (snd r) = [].
Proof. vm_compute. split_and!; reflexivity. Qed.

(** Had the watcher reached its select, the machine would take poll ticks:
    a goroutine of [sleep] whose ten seconds are over hands its value to
    the select, and, a response of the server being there to receive, the
    branch starts the next one. *)
Example poll_tick_from_select :
  let w := {| pc := AtSelect; sleepers := [0]; ticker := Some reset_interval;
              tick_ready := false |} in
  let s := notified two_unread in
  fst <$> idle_step (Pass (Sleeper 0) Watcher) w s =
  Some {| pc := AtSelect; sleepers := [poll_interval];
          ticker := Some reset_interval; tick_ready := false |}.
Proof. vm_compute. reflexivity. Qed.

(** After an accepted rule the shutdown returns; the client is closed by
    the quit branch and once more by the deferred call. *)
Example quit_after_rule_returns :
  let r := Run [InRule accepted; Quit] (start (serving [])) in
  fst r = Val Returned ∧
  filter (fun k => is_close k = true) (calls (snd r)) =
    [CClose 0 true; CClose 0 true].
Proof. vm_compute. split_and!; reflexivity. Qed.

(** * Further properties of the block *)

Section More.
Context `{ImapWorld}.

Ltac munfold :=
  unfold conn_Login, conn_Select, conn_Fetch, conn_UIDFetch, conn_Idle,
         conn_IdleTerm, conn_Recv, conn_Close, conn_DataLen, imap_DialTLS,
         bind, ret, get_blk, put_blk, Error, send_out, send_reply,
         push_defer, go_idle, sleep, lib, deref in *.

(** ** Opening a client *)

(** X1.  [newIMAPClient] dials, then logs in with the given name and
    password, then selects the given mailbox read-only, all on the client
    the dial returned, and stops at the first stage that fails.  It closes
    nothing and reports nothing itself. *)
Theorem newIMAPClient_stages (h u p m : string) (s : St) :
  let r := newIMAPClient h u p m s in
  let d := DialTLS h (world s) in
  blk (snd r) = blk s ∧ out (snd r) = out s ∧ errlog (snd r) = errlog s ∧
  defers (snd r) = defers s ∧
  match snd (fst d), fst (fst d) with
  | Some err, conn =>
    fst r = Val (conn, Some err) ∧
    calls (snd r) = calls s ++ [CDialTLS h conn (Some err)]
  | None, None =>
    fst r = Panic ∧ calls (snd r) = calls s ++ [CDialTLS h None None]
  | None, Some c =>
    let l := Login c u p (snd d) in
    match fst l with
    | Some err =>
      fst r = Val (Some c, Some err) ∧
      calls (snd r) =
        calls s ++ [CDialTLS h (Some c) None; CLogin c u p (Some err)]
    | None =>
      let sl := Select c m true (snd l) in
      fst r = Val (Some c, fst sl) ∧
      world (snd r) = snd sl ∧
      calls (snd r) =
        calls s ++ [CDialTLS h (Some c) None; CLogin c u p None;
                    CSelect c m true (fst sl)]
    end
  end.
Proof.
  unfold newIMAPClient. munfold. simpl.
  destruct (DialTLS h (world s)) as [[conn derr] w1]; simpl.
  destruct derr as [derr|]; simpl; [done|].
  destruct conn as [c|]; simpl; [|done].
  destruct (Login c u p w1) as [[lerr|] w2]; simpl.
  { by rewrite <- app_assoc. }
  destruct (Select c m true w2) as [[serr|] w3]; simpl;
    by rewrite <- !app_assoc.
Qed.

(** ** The two requests of a fetch *)

Lemma uid_fold_elem (l : list (MessageInfo Field)) (seq : SeqSet) (n : N) :
  n ∈ seq_nums (fold_left (fun seq rsp => AddNum seq (UID rsp)) l seq) ↔
  n ∈ seq_nums seq ∨ ∃ rsp, rsp ∈ l ∧ UID rsp = n.
Proof.
  revert seq. induction l as [|rsp l IH]; intros seq; simpl.
  - split; [by left|]. intros [Hn|(rsp & Hin & _)]; [done|].
    by apply elem_of_nil in Hin.
  - rewrite IH. simpl. rewrite elem_of_union, elem_of_singleton. split.
    + intros [[->|Hn]|(r & Hin & Hr)].
      * right. exists rsp. split; [apply list_elem_of_here|done].
      * by left.
      * right. exists r. split; [by apply list_elem_of_further|done].
    + intros [Hn|(r & Hin & Hr)]; [by left; right|].
      apply elem_of_cons in Hin as [->|Hin]; [by left; left|].
      right. by exists r.
Qed.

(** X2.  The set of identifiers that [getEmails] asks for holds exactly
    the identifiers of the responses of the sweep (each once, however often
    it occurs) and is never the set [1:*]. *)
Theorem uid_seq_names_the_responses (cmd : Command Field) (n : N) :
  seq_all (uid_seq cmd) = false ∧
  (n ∈ seq_nums (uid_seq cmd) ↔ ∃ rsp, rsp ∈ Data cmd ∧ UID rsp = n).
Proof.
  split; [apply uid_seq_size|].
  unfold uid_seq. rewrite uid_fold_elem. simpl. split.
  - intros [Hn|Hr]; [|done]. by apply not_elem_of_empty in Hn.
  - intros Hr. by right.
Qed.

(** X3.  [getEmails] makes one UID FETCH for date, body, identifier and
    header.  On success it returns one message per response, in the order
    of the responses, built from the INTERNALDATE and BODY[] attributes of
    each; on failure it returns the error with an empty list. *)
Theorem getEmails_one_per_response (c : Client) (cmd : Command Field) (s : St) :
  let b := UIDFetch c (uid_seq cmd)
             ["INTERNALDATE"; "BODY[]"; "UID"; "RFC822.HEADER"] (world s) in
  let r := getEmails (Some c) cmd s in
  calls (snd r) =
    calls s ++ [CUIDFetch c (uid_seq cmd)
                  ["INTERNALDATE"; "BODY[]"; "UID"; "RFC822.HEADER"]
                  (snd (fst b))] ∧
  out (snd r) = out s ∧ errlog (snd r) = errlog s ∧
  match snd (fst b) with
  | Some err => fst r = Val ([], Some err)
  | None =>
    ∃ emails,
      fst r = Val (emails, None) ∧
      length emails = length (Data (fst (fst b))) ∧
      ∀ i rsp,
        Data (fst (fst b)) !! i = Some rsp ->
        emails !! i =
          Some {| Received := AsDateTime (attr rsp "INTERNALDATE");
                  Body := AsString (attr rsp "BODY[]") |}
  end.
Proof.
  unfold getEmails. munfold. simpl.
  destruct (UIDFetch c (uid_seq cmd) _ (world s)) as [[fCmd [err|]] w1];
    simpl; [done|].
  split_and!; try done. exists (emails_of fCmd).
  rewrite emails_of_map. split_and!; [done | by rewrite length_map |].
  intros i rsp Hi. rewrite list_lookup_fmap, Hi. done.
Qed.

(** ** A whole fetch *)

(** What [fetchUnread] does on a live client, call by call. *)
Lemma fetchUnread_calls (s : St) (c : Client) :
  client (blk s) = Some c ->
  let all := Add_1_star NewSeqSet in
  let swept := ["RFC822.HEADER"; "UID"] in
  let wanted := ["INTERNALDATE"; "BODY[]"; "UID"; "RFC822.HEADER"] in
  let sweep := Fetch c all swept (world s) in
  let asked := uid_seq (fst (fst sweep)) in
  let batch := UIDFetch c asked wanted (snd sweep) in
  let emails := map email_of (Data (fst (fst batch))) in
  let r := fetchUnread s in
  blk (snd r) = blk s ∧ sleeps (snd r) = sleeps s ∧
  match snd (fst sweep), snd (fst batch) with
  | Some err, _ =>
    fst r = Val (Some err) ∧
    calls (snd r) = calls s ++ [CFetch c all swept (Some err)] ∧
    out (snd r) = out s ∧ errlog (snd r) = errlog s
  | None, Some err =>
    fst r = Val (Some err) ∧
    calls (snd r) =
      calls s ++ [CFetch c all swept None; CUIDFetch c asked wanted (Some err)] ∧
    out (snd r) = out s ∧ errlog (snd r) = errlog s
  | None, None =>
    fst r = Val None ∧
    calls (snd r) =
      calls s ++ [CFetch c all swept None; CUIDFetch c asked wanted None] ∧
    out (snd r) = out s ++ omap encoded emails ∧
    errlog (snd r) = errlog s ++ omap refusal emails
  end.
Proof.
  intros Hc. simpl.
  unfold fetchUnread, findUnreadEmails, getEmails. munfold; simpl.
  rewrite Hc; simpl.
  destruct (Fetch c _ _ (world s)) as [[cmd e1] w1]; simpl.
  destruct e1 as [err|]; simpl; [done|]. rewrite Hc; simpl.
  destruct (UIDFetch c (uid_seq cmd) _ w1) as [[fCmd e2] w2]; simpl.
  destruct e2 as [err|]; simpl; [by rewrite <- app_assoc|].
  rewrite emit_emails_spec, emails_of_map. simpl. by rewrite <- app_assoc.
Qed.

Lemma omap_encoded_refusal (emails : list (emailMessage Time)) :
  length (omap encoded emails) + length (omap refusal emails) = length emails.
Proof.
  induction emails as [|email rest IH]; [done|].
  change (omap encoded (email :: rest)) with
    (match encoded email with
     | Some y => y :: omap encoded rest
     | None => omap encoded rest
     end).
  change (omap refusal (email :: rest)) with
    (match refusal email with
     | Some y => y :: omap refusal rest
     | None => omap refusal rest
     end).
  unfold encoded at 1, refusal at 1.
  destruct (Marshal email); simpl; lia.
Qed.

(** X4.  A fetch whose two requests succeed accounts for every record it
    retrieved exactly once: each record is either sent on [e.out] or
    reported as an error, never both and never neither. *)
Theorem fetchUnread_accounts_for_every_record (s : St) (c : Client) :
  client (blk s) = Some c ->
  let sweep := Fetch c (Add_1_star NewSeqSet) ["RFC822.HEADER"; "UID"] (world s) in
  let batch := UIDFetch c (uid_seq (fst (fst sweep)))
                 ["INTERNALDATE"; "BODY[]"; "UID"; "RFC822.HEADER"] (snd sweep) in
  snd (fst sweep) = None ->
  snd (fst batch) = None ->
  let r := fetchUnread s in
  length (out (snd r)) + length (errlog (snd r)) =
  length (out s) + length (errlog s) + length (Data (fst (fst batch))).
Proof.
  intros Hc sweep batch Hsweep Hbatch r.
  pose proof (fetchUnread_calls s c Hc) as Hrun. simpl in Hrun.
  fold sweep in Hrun. fold batch in Hrun. fold r in Hrun.
  rewrite Hsweep, Hbatch in Hrun.
  destruct Hrun as (_ & _ & _ & _ & Hout & Herr).
  rewrite Hout, Herr, !length_app.
  pose proof (omap_encoded_refusal (map email_of (Data (fst (fst batch))))) as Hn.
  rewrite length_map in Hn. lia.
Qed.

(** X5.  When the sweep returns no response at all (an empty mailbox) the
    retrieval is still sent, for the empty set of identifiers, and its
    outcome decides the outcome of the fetch. *)
Theorem fetchUnread_empty_sweep (s : St) (c : Client) :
  client (blk s) = Some c ->
  let sweep := Fetch c (Add_1_star NewSeqSet) ["RFC822.HEADER"; "UID"] (world s) in
  snd (fst sweep) = None ->
  Data (fst (fst sweep)) = [] ->
  let batch := UIDFetch c NewSeqSet
                 ["INTERNALDATE"; "BODY[]"; "UID"; "RFC822.HEADER"] (snd sweep) in
  let r := fetchUnread s in
  fst r = Val (snd (fst batch)) ∧
  calls (snd r) =
    calls s ++
    [CFetch c (Add_1_star NewSeqSet) ["RFC822.HEADER"; "UID"] None;
     CUIDFetch c NewSeqSet ["INTERNALDATE"; "BODY[]"; "UID"; "RFC822.HEADER"]
       (snd (fst batch))].
Proof.
  intros Hc sweep Hsweep Hdata batch r.
  pose proof (fetchUnread_calls s c Hc) as Hrun. simpl in Hrun.
  fold sweep in Hrun. fold r in Hrun. rewrite Hsweep in Hrun.
  assert (Hseq : uid_seq (fst (fst sweep)) = NewSeqSet)
    by (unfold uid_seq; by rewrite Hdata).
  rewrite Hseq in Hrun. fold batch in Hrun.
  destruct (snd (fst batch)) as [err|]; tauto.
Qed.

(** X6.  With a nil client, a fetch, each piece of the watcher and the
    quit branch panic at their first method call: no library call is made
    and nothing is changed. *)
Theorem nil_client_panics (s : St) :
  client (blk s) = None ->
  fetchUnread s = (Panic, s) ∧
  idle_arm s = (Panic, s) ∧
  idle_poll s = (Panic, s) ∧
  idle_reset s = (Panic, s) ∧
  Run_quit s = (Panic, s).
Proof.
  intros Hc.
  unfold fetchUnread, findUnreadEmails, idle_arm, idle_poll, idle_reset, Run_quit.
  munfold. simpl. by rewrite Hc.
Qed.

(** ** The poll branch of the watcher *)

(** Case analysis of one pass through the poll branch on a live client:
    what [Recv] answers, whether data is waiting, what [IdleTerm], the
    two requests of the fetch and [Idle] answer. *)
Ltac poll_cases s c Hc :=
  unfold idle_poll; munfold; simpl; rewrite ?Hc; simpl;
  destruct (Recv c (world s)) as [[rerr|] w1] eqn:Hrecv; simpl;
  [ | rewrite ?Hc; simpl;
      destruct (0 <? ClientData c w1) eqn:Hdata; simpl;
      [ rewrite ?Hc; simpl;
        destruct (IdleTerm c w1) as [[terr|] w2] eqn:Hterm; simpl;
        [ | match goal with
            | |- context [fetchUnread ?s3] =>
              pose proof (fetchUnread_calls s3 c Hc) as Hf; simpl in Hf;
              destruct (Fetch c _ _ w2) as [[cmd [e1|]] w3] eqn:Hsweep;
              simpl in Hf;
              [ | destruct (UIDFetch c _ _ w3) as [[fCmd [e2|]] w4] eqn:Hbatch;
                  simpl in Hf ];
              destruct Hf as (Hblk & Hsl & Hr & Hcalls & Hout & Herr);
              destruct (fetchUnread s3) as [rf s4]; simpl in Hr; subst rf;
              simpl in *;
              [ | | rewrite Hblk, Hc; simpl;
                    destruct (Idle c (world s4)) as [[ierr|] w5] eqn:Hidle;
                    simpl ]
            end ]
      | ] ].

Ltac trace_ends pre k err :=
  split; [done|]; eexists; split; [done|];
  exists pre, k, err; split_and!;
    [done | done | by repeat constructor | by rewrite ?app_assoc, last_snoc].

(** X7.  On a live client the poll branch calls [sleep(poll)] exactly once
    on every path.  It lets the loop go on only when every library call it
    made succeeded; it makes the watcher return exactly when a call
    failed, that call being the last one made and its error the last one
    reported. *)
Theorem idle_poll_exits_on_failure (s : St) (c : Client) :
  client (blk s) = Some c ->
  let r := idle_poll s in
  sleeps (snd r) = S (sleeps s) ∧
  ∃ new,
    calls (snd r) = calls s ++ new ∧
    match fst r with
    | Val Continue => Forall (fun k => call_err k = None) new
    | Val Return =>
      ∃ pre k err,
        new = pre ++ [k] ∧ call_err k = Some err ∧
        Forall (fun k => call_err k = None) pre ∧
        last (errlog (snd r)) = Some err
    | Panic => False
    end.
Proof.
  intros Hc. poll_cases s c Hc.
  all: rewrite ?Hsl, ?Hcalls, ?Herr; simpl; rewrite <- ?app_assoc; simpl.
  - trace_ends (@nil call) (CRecv c (Some rerr)) rerr.
  - trace_ends [CRecv c None] (CIdleTerm c (Some terr)) terr.
  - trace_ends [CRecv c None; CIdleTerm c None]
      (CFetch c (Add_1_star NewSeqSet) ["RFC822.HEADER"; "UID"] (Some e1)) e1.
  - trace_ends [CRecv c None; CIdleTerm c None;
                CFetch c (Add_1_star NewSeqSet) ["RFC822.HEADER"; "UID"] None]
      (CUIDFetch c (uid_seq cmd)
         ["INTERNALDATE"; "BODY[]"; "UID"; "RFC822.HEADER"] (Some e2)) e2.
  - trace_ends [CRecv c None; CIdleTerm c None;
                CFetch c (Add_1_star NewSeqSet) ["RFC822.HEADER"; "UID"] None;
                CUIDFetch c (uid_seq cmd)
                  ["INTERNALDATE"; "BODY[]"; "UID"; "RFC822.HEADER"] None]
      (CIdle c (Some ierr)) ierr.
  - split; [done|]. eexists. split; [done|]. by repeat constructor.
  - split; [done|]. eexists. split; [done|]. by repeat constructor.
Qed.

(** X8.  The poll branch never fetches while the push-wait is armed: if it
    sends a FETCH or UID FETCH at all, it has first interrupted the wait
    with a successful [IdleTerm], and it arms the wait again only after
    both requests of the fetch succeeded. *)
Theorem idle_poll_fetches_outside_the_wait (s : St) (c : Client) :
  client (blk s) = Some c ->
  let r := idle_poll s in
  ∃ new,
    calls (snd r) = calls s ++ new ∧
    ((∃ k, k ∈ new ∧ is_fetch k = true) ->
     ∃ rest, new = CRecv c None :: CIdleTerm c None :: rest ∧
             ∀ fetched k after,
               rest = fetched ++ k :: after -> is_fetch k = false ->
               k = CIdle c (call_err k) ∧ after = [] ∧
               Forall (fun f => is_fetch f = true ∧ call_err f = None) fetched).
Proof.
  intros Hc. poll_cases s c Hc.
  all: rewrite ?Hcalls; simpl; rewrite <- ?app_assoc; simpl.
  all: eexists; split; [done|]; intros (k0 & Hin & Hk0).
  all: repeat (apply elem_of_cons in Hin as [->|Hin]; try discriminate).
  all: try by apply elem_of_nil in Hin.
  all: eexists; split; [done|]; intros fetched k after Hrest Hk.
  all: destruct fetched as [|f1 [|f2 [|f3 fetched]]]; simplify_eq/=.
  all: try (destruct fetched; simplify_eq/=).
  all: split_and!; try done; by repeat constructor.
Qed.

(** X9.  A poll tick on which [Recv] fails ends the watcher, and [Recv(0)]
    fails, with a timeout, whenever no response of the server is waiting.
    The branch makes that one call and no other, so the wait is left armed
    on the server; it reports the error, sends nothing, still calls
    [sleep(poll)], and makes [idle] return. *)
Theorem idle_poll_returns_when_recv_fails (s : St) (c : Client) (err : error) :
  client (blk s) = Some c ->
  fst (Recv c (world s)) = Some err ->
  let r := idle_poll s in
  fst r = Val Return ∧
  calls (snd r) = calls s ++ [CRecv c (Some err)] ∧
  world (snd r) = snd (Recv c (world s)) ∧
  errlog (snd r) = errlog s ++ [err] ∧
  out (snd r) = out s ∧
  blk (snd r) = blk s ∧
  sleeps (snd r) = S (sleeps s).
Proof.
  intros Hc Hrecv. unfold idle_poll. munfold. simpl. rewrite Hc. simpl.
  destruct (Recv c (world s)) as [rerr w1]. simpl in *. subst rerr. simpl.
  by split_and!.
Qed.

(** ** The watcher as a goroutine *)

Lemma exited_is_final (evs : list event) (w : watcher) (s : St) :
  pc w = Exited ->
  pc (fst (idle_run evs w s)) = Exited ∧ snd (idle_run evs w s) = s.
Proof.
  revert w. induction evs as [|ev evs IH]; intros w Hpc; simpl; [done|].
  destruct ev as [| |snd rcv|]; simpl.
  - by apply IH.
  - rewrite Hpc. by apply IH.
  - assert (rendezvous w snd rcv = false) as ->; [|by apply IH].
    unfold rendezvous. destruct rcv; simpl; rewrite ?Hpc;
      by rewrite andb_false_r.
  - rewrite Hpc. by apply IH.
Qed.

(** X10.  When the command that arms the wait fails, the watcher reports
    that one error and returns; nothing that happens afterwards makes it
    call the library, send or report again. *)
Theorem watcher_exits_when_arm_fails (evs : list event) (s : St)
    (c : Client) (err : error) :
  client (blk s) = Some c ->
  fst (Idle c (world s)) = Some err ->
  let r := idle_run (RunArm :: evs) new_watcher s in
  pc (fst r) = Exited ∧
  calls (snd r) = calls s ++ [CIdle c (Some err)] ∧
  errlog (snd r) = errlog s ++ [err] ∧
  out (snd r) = out s.
Proof.
  intros Hc Hidle. simpl. unfold idle_arm. munfold. simpl. rewrite Hc. simpl.
  destruct (Idle c (world s)) as [ierr w1]. simpl in Hidle. subst ierr. simpl.
  match goal with
  | |- context [idle_run evs ?w ?s1] =>
    destruct (exited_is_final evs w s1 eq_refl) as [Hpc Hs]
  end.
  rewrite Hpc, Hs. done.
Qed.

(** ** The control loop *)

(** X11.  A query changes nothing but the list of replies, and its reply
    holds the four current fields under the keys Host, Username, Password
    and Mailbox, and no other key. *)
Theorem query_reports_current_fields (s : St) :
  let r := Run_queryrule s in
  fst r = Val tt ∧
  blk (snd r) = blk s ∧ world (snd r) = world s ∧ calls (snd r) = calls s ∧
  out (snd r) = out s ∧ errlog (snd r) = errlog s ∧
  defers (snd r) = defers s ∧ watchers (snd r) = watchers s ∧
  ∃ m : gmap string string,
    replies (snd r) = replies s ++ [m] ∧
    m !! "Host" = Some (host (blk s)) ∧
    m !! "Username" = Some (username (blk s)) ∧
    m !! "Password" = Some (password (blk s)) ∧
    m !! "Mailbox" = Some (mailbox (blk s)) ∧
    dom m = {[ "Host"; "Username"; "Password"; "Mailbox" ]}.
Proof.
  unfold Run_queryrule. munfold. simpl. split_and!; try done.
  exists (snapshot (blk s)). unfold snapshot. split_and!; done.
Qed.

Lemma Run_loop_app_quit (pre post : list stimulus) (s : St) :
  Run_loop (pre ++ Quit :: post) s = Run_loop (pre ++ [Quit]) s.
Proof.
  revert s. induction pre as [|st pre IH]; intros s; simpl; [done|].
  destruct st; simpl; try done; unfold bind;
    match goal with
    | |- context [match ?m s with _ => _ end] => destruct (m s) as [[[]|] s1]
    end; try done; apply IH.
Qed.

(** X12.  [Run] stops at the first shutdown signal: whatever is sent after
    it has no effect, and [Run] returns only if a shutdown signal was
    sent. *)
Theorem Run_stops_at_first_quit (pre post : list stimulus) (s : St) :
  Run (pre ++ Quit :: post) s = Run (pre ++ [Quit]) s ∧
  (∀ stimuli, fst (Run stimuli s) = Val Returned -> Quit ∈ stimuli).
Proof.
  split.
  - unfold Run. by rewrite Run_loop_app_quit.
  - intros stimuli. unfold Run.
    assert (Hloop : ∀ s, fst (Run_loop stimuli s) = Val Returned -> Quit ∈ stimuli).
    { induction stimuli as [|st rest IH]; intros s0; simpl; [done|].
      destruct st; simpl; unfold bind.
      - destruct (Run_inrule msgI s0) as [[[]|] s1]; simpl; [|done].
        intros Hr. apply elem_of_cons. right. by apply (IH s1).
      - intros _. apply list_elem_of_here.
      - destruct (Run_queryrule s0) as [[[]|] s1]; simpl; [|done].
        intros Hr. apply elem_of_cons. right. by apply (IH s1). }
    destruct (Run_loop stimuli s) as [[[|]|] s1] eqn:Hrun; simpl; try done.
    intros _. apply (Hloop s). by rewrite Hrun.
Qed.

(** Case analysis of one rule: validation, the three stages of the open,
    the two requests of the initial fetch. *)
Ltac rule_cases s :=
  unfold Run_inrule, newIMAPClient; munfold; simpl;
  destruct (parseAuthRules _ (blk s)) as [e [perr|]] eqn:Hparse; simpl;
  [ | destruct (DialTLS _ _) as [[conn [derr|]] w1] eqn:Hdial; simpl;
      [ | destruct conn as [c|]; simpl;
          [ destruct (Login c _ _ _) as [[lerr|] w2] eqn:Hlogin; simpl;
            [ | destruct (Select c _ _ _) as [[serr|] w3] eqn:Hselect; simpl;
                [ | match goal with
                    | |- context [fetchUnread ?s3] =>
                      pose proof (fetchUnread_calls s3 c eq_refl) as Hf;
                      pose proof (fetchUnread_frame s3) as Hfr;
                      simpl in Hf, Hfr;
                      destruct (Fetch c _ _ w3) as [[cmd [e1|]] w4] eqn:Hsweep;
                      simpl in Hf;
                      [ | destruct (UIDFetch c _ _ w4) as [[fCmd [e2|]] w5]
                            eqn:Hbatch;
                          simpl in Hf ];
                      destruct Hf as (Hblk & Hsl & Hr & Hcalls & Hout & Herr);
                      destruct Hfr as (_ & Hdefers & Hwatchers & Hreplies & _);
                      destruct (fetchUnread s3) as [rf s4]; simpl in Hr;
                      subst rf; simpl in *
                    end ] ]
          | ] ] ].

(** X13.  A watcher is started for a rule only when the dial, the login,
    the read-only select, the sweep and the retrieval all succeeded, in
    that order and on one client; that client is then [e.client] and its
    close is deferred.  Otherwise the count of watchers is unchanged. *)
Theorem watcher_started_after_five_calls (msgI : gmap string value) (s : St) :
  let r := Run_inrule msgI s in
  let e := blk (snd r) in
  watchers (snd r) = watchers s ∨
  (watchers (snd r) = S (watchers s) ∧
   fst r = Val tt ∧
   ∃ c seq,
     client e = Some c ∧
     defers (snd r) = Some c :: defers s ∧
     calls (snd r) =
       calls s ++
       [CDialTLS (host e) (Some c) None;
        CLogin c (username e) (password e) None;
        CSelect c (mailbox e) true None;
        CFetch c (Add_1_star NewSeqSet) ["RFC822.HEADER"; "UID"] None;
        CUIDFetch c seq ["INTERNALDATE"; "BODY[]"; "UID"; "RFC822.HEADER"] None]).
Proof.
  rule_cases s; rewrite ?Hwatchers; auto.
  right. rewrite Hblk, Hdefers, Hcalls. simpl. rewrite <- !app_assoc. simpl.
  split_and!; try done. by eexists _, _.
Qed.

(** Handling a rule keeps every open Session among the deferred closes. *)
Lemma Run_inrule_sessions_deferred (msgI : gmap string value) (s : St) :
  sessions_deferred s -> sessions_deferred (snd (Run_inrule msgI s)).
Proof.
  unfold sessions_deferred. intros Hinv.
  rule_cases s; rewrite ?Hdefers, ?Hcalls; simpl; intros c0;
    rewrite <- ?app_assoc, ?open_sessions_app; simpl; try apply Hinv.
  all: intros Hin; apply elem_of_cons in Hin as [->|Hin];
    [apply list_elem_of_here | by apply list_elem_of_further, Hinv].
Qed.

Lemma Run_loop_sessions_deferred (stimuli : list stimulus) (s : St) :
  sessions_deferred s -> sessions_deferred (snd (Run_loop stimuli s)).
Proof.
  revert s. induction stimuli as [|st rest IH]; intros s Hinv; simpl; [done|].
  destruct st; simpl; unfold bind.
  - pose proof (Run_inrule_sessions_deferred msgI s Hinv) as Hinv1.
    destruct (Run_inrule msgI s) as [[[]|] s1]; simpl in *; [by apply IH|done].
  - unfold Run_quit. munfold. simpl.
    destruct (client (blk s)) as [c|]; simpl; [|done].
    destruct (Close c true (world s)) as [cerr w1]; simpl.
    unfold sessions_deferred in *. simpl. intros c0.
    rewrite open_sessions_app. simpl.
    intros Hin. apply list_elem_of_filter in Hin as [_ Hin]. by apply Hinv.
  - apply IH. done.
Qed.

(** After the deferred closes, only Sessions that were not deferred can
    still be open. *)
Lemma run_defers_closes (ds : list (option Client)) (s : St) (c : Client) :
  c ∈ open_sessions (calls (snd (run_defers ds s))) ->
  c ∈ open_sessions (calls s) ∧ Some c ∉ ds.
Proof.
  revert s. induction ds as [|d ds IH]; intros s; simpl.
  - intros Hin. split; [done|]. apply not_elem_of_nil.
  - unfold conn_Close. munfold. simpl. destruct d as [d|]; simpl.
    + destruct (Close d true (world s)) as [cerr w1]; simpl.
      match goal with
      | |- context [run_defers ds ?s1] =>
        destruct (run_defers ds s1) as [[[]|] s2] eqn:Hrest;
          pose proof (IH s1) as IH1; rewrite Hrest in IH1
      end; simpl in *; intros Hin; apply IH1 in Hin as [Hin Hds];
        rewrite open_sessions_app in Hin; simpl in Hin;
        apply list_elem_of_filter in Hin as [Hne Hin];
        (split; [done|]); rewrite not_elem_of_cons; split; congruence.
    + intros Hin. apply IH in Hin as [Hin Hds]. split; [done|].
      rewrite not_elem_of_cons. split; [done|done].
Qed.

(** X14.  When [Run] ends, by returning or by panicking, [Close] has been
    called on every Session opened since the block was made: each Session
    has its close deferred when it is opened, and the deferred closes run
    on the way out. *)
Theorem Run_leaves_no_session_open (stimuli : list stimulus) (w : World) :
  fst (Run stimuli (start w)) ≠ Val Blocked ->
  open_sessions (calls (snd (Run stimuli (start w)))) = [].
Proof.
  intros Hended.
  assert (Hinv : sessions_deferred (snd (Run_loop stimuli (start w)))).
  { apply Run_loop_sessions_deferred. intros c Hin. by apply elem_of_nil in Hin. }
  apply elem_of_nil_inv. intros c Hin.
  assert (Hclosed : c ∈ open_sessions (calls (snd
            (run_defers (defers (snd (Run_loop stimuli (start w))))
                        (snd (Run_loop stimuli (start w))))))).
  { revert Hended Hin. unfold Run.
    destruct (Run_loop stimuli (start w)) as [[[|]|] s1]; simpl; try done.
    destruct (run_defers (defers s1) s1) as [[[]|] s2]; simpl; done. }
  apply run_defers_closes in Hclosed as [Hopen Hnot].
  by apply Hnot, Hinv.
Qed.

(** What one rule adds to the log of calls and to the reported errors:
    the error of validation or of the call that failed, or the refusals of
    the encoder, and for a valid rule a dial of its host. *)
Lemma Run_inrule_reports (msgI : gmap string value) (s : St) :
  dial_gives_client ->
  let r := Run_inrule msgI s in
  fst r = Val tt ∧
  ∃ new errs,
    calls (snd r) = calls s ++ new ∧
    errlog (snd r) = errlog s ++ errs ∧
    (∀ k err, k ∈ new -> call_err k = Some err -> err ∈ errs) ∧
    (∀ key, offending msgI = Some key -> new = [] ∧ errs = [ValidationError key]) ∧
    (∀ h, offending msgI = None -> str_field msgI "Host" = Some h ->
          ∃ conn err rest, new = CDialTLS h conn err :: rest).
Proof.
  intros Hdial0. simpl.
  destruct (offending msgI) as [key|] eqn:Hoff.
  - destruct (parseAuthRules_invalid msgI (blk s) key Hoff) as (Hperr & _).
    unfold Run_inrule. munfold; simpl. rewrite Hperr; simpl.
    split; [done|]. exists [], [ValidationError key]. rewrite app_nil_r.
    split_and!; try done.
    + intros k err Hin. by apply elem_of_nil in Hin.
    + by intros k [= <-].
  - destruct (parseAuthRules_valid msgI (blk s) Hoff)
      as (h & u & p & m & Hh & _ & _ & _ & Hp).
    rule_cases s; rewrite Hp in Hparse; simplify_eq/=.
    all: rewrite ?Hcalls, ?Herr; simpl; rewrite <- ?app_assoc; simpl.
    all: try (specialize (Hdial0 h (world s)); rewrite Hdial in Hdial0;
              by destruct Hdial0).
    all: split; [done|]; eexists _, _; split; [done|]; split; [done|].
    all: split_and!; [| done | intros h' _ Hh'; simplify_eq; by eexists _, _, _].
    all: intros k err Hin Hk.
    all: repeat (apply elem_of_cons in Hin as [->|Hin]; simplify_eq/=).
    all: try by apply elem_of_nil in Hin.
    all: set_solver.
Qed.

Lemma Run_loop_reports (stimuli : list stimulus) (s : St) :
  dial_gives_client ->
  Quit ∉ stimuli ->
  let r := Run_loop stimuli s in
  fst r = Val Blocked ∧
  ∃ new errs,
    calls (snd r) = calls s ++ new ∧
    errlog (snd r) = errlog s ++ errs ∧
    (∀ k err, k ∈ new -> call_err k = Some err -> err ∈ errs) ∧
    (∀ msgI key, InRule msgI ∈ stimuli -> offending msgI = Some key ->
                 ValidationError key ∈ errs) ∧
    (∀ msgI h, InRule msgI ∈ stimuli -> offending msgI = None ->
               str_field msgI "Host" = Some h ->
               ∃ conn err, CDialTLS h conn err ∈ new).
Proof.
  intros Hdial Hquit. simpl.
  revert s. induction stimuli as [|st rest IH]; intros s; simpl.
  { split; [done|]. exists [], []. rewrite !app_nil_r.
    split_and!; try done.
    - intros k err Hin. by apply elem_of_nil in Hin.
    - intros msgI key Hin. by apply elem_of_nil in Hin.
    - intros msgI h Hin. by apply elem_of_nil in Hin. }
  apply not_elem_of_cons in Hquit as [Hst Hrest].
  specialize (IH Hrest).
  destruct st as [msgI| |]; simpl; unfold bind; [| done |].
  - pose proof (Run_inrule_reports msgI s Hdial) as Hone. simpl in Hone.
    destruct (Run_inrule msgI s) as [r1 s1]. simpl in Hone.
    destruct Hone as (-> & new1 & errs1 & Hc1 & He1 & Hk1 & Hbad1 & Hok1).
    destruct (IH s1) as (Hr & new2 & errs2 & Hc2 & He2 & Hk2 & Hbad2 & Hok2).
    split; [exact Hr|]. exists (new1 ++ new2), (errs1 ++ errs2).
    rewrite Hc2, He2, Hc1, He1, <- !app_assoc.
    split_and!; try done.
    + intros k err Hin Hk. apply elem_of_app.
      apply elem_of_app in Hin as [Hin|Hin]; [left|right]; eauto.
    + intros msgI' key Hin Hoff. apply elem_of_app.
      apply elem_of_cons in Hin as [Heq|Hin].
      * injection Heq as ->. left. destruct (Hbad1 key Hoff) as [_ ->].
        apply list_elem_of_here.
      * right. eauto.
    + intros msgI' h Hin Hoff Hh.
      apply elem_of_cons in Hin as [Heq|Hin].
      * injection Heq as ->.
        destruct (Hok1 h Hoff Hh) as (conn & err & tl & ->).
        exists conn, err. apply elem_of_app. left. apply list_elem_of_here.
      * destruct (Hok2 msgI' h Hin Hoff Hh) as (conn & err & Hin2).
        exists conn, err. apply elem_of_app. by right.
  - destruct (IH (snd (Run_queryrule s)))
      as (Hr & new2 & errs2 & Hc2 & He2 & Hk2 & Hbad2 & Hok2).
    unfold Run_queryrule in *. munfold. simpl in *.
    split; [exact Hr|]. exists new2, errs2.
    split_and!; try done.
    + intros msgI' key Hin Hoff.
      apply elem_of_cons in Hin as [Heq|Hin]; [done|]. eauto.
    + intros msgI' h Hin Hoff Hh.
      apply elem_of_cons in Hin as [Heq|Hin]; [done|]. eauto.
Qed.

(** X15.  No rule and no query ends the control loop, and what fails on the
    way is reported.  As long as the dial keeps its promise of a client
    whenever it reports no error, each rule is handled without a panic and
    the loop is back in its select when the stimuli are used up.  By then
    every call of the library that failed has its error among the errors
    reported, every rule that failed validation has its validation error
    among them, and for every valid rule its host was dialled. *)
Theorem Run_survives_rules_and_queries (stimuli : list stimulus) (s : St) :
  dial_gives_client ->
  Quit ∉ stimuli ->
  let r := Run stimuli s in
  fst r = Val Blocked ∧
  ∃ new errs,
    calls (snd r) = calls s ++ new ∧
    errlog (snd r) = errlog s ++ errs ∧
    (∀ k err, k ∈ new -> call_err k = Some err -> err ∈ errs) ∧
    (∀ msgI key, InRule msgI ∈ stimuli -> offending msgI = Some key ->
                 ValidationError key ∈ errs) ∧
    (∀ msgI h, InRule msgI ∈ stimuli -> offending msgI = None ->
               str_field msgI "Host" = Some h ->
               ∃ conn err, CDialTLS h conn err ∈ new).
Proof.
  intros Hdial Hquit. simpl. unfold Run.
  pose proof (Run_loop_reports stimuli s Hdial Hquit) as Hloop. simpl in Hloop.
  destruct (Run_loop stimuli s) as [r1 s1]. simpl in Hloop.
  destruct Hloop as (-> & Hloop). simpl. split; [done|]. exact Hloop.
Qed.

(** What [Run_inrule] does with a rule that fails validation. *)
Lemma Run_inrule_invalid (msgI : gmap string value) (s : St) (key : string) :
  offending msgI = Some key ->
  let r := Run_inrule msgI s in
  fst r = Val tt ∧
  calls (snd r) = calls s ∧ world (snd r) = world s ∧ out (snd r) = out s ∧
  client (blk (snd r)) = client (blk s) ∧ defers (snd r) = defers s ∧
  watchers (snd r) = watchers s ∧ replies (snd r) = replies s.
Proof.
  intros Hbad.
  destruct (parseAuthRules_invalid msgI (blk s) key Hbad) as (Herr & Hcl & _).
  unfold Run_inrule. munfold. simpl. rewrite Herr. simpl. done.
Qed.

(** X16.  Until a rule passes validation the block stays off the network:
    queries and rejected rules make no library call, send nothing, defer
    nothing, start no watcher and leave the client as it was, and every
    query among them is answered. *)
Theorem Run_is_quiet_without_a_valid_rule (stimuli : list stimulus) (s : St) :
  Forall (fun st => match st with
                    | InRule msgI => offending msgI ≠ None
                    | Quit => False
                    | QueryRule => True
                    end) stimuli ->
  let r := Run stimuli s in
  fst r = Val Blocked ∧
  calls (snd r) = calls s ∧ world (snd r) = world s ∧ out (snd r) = out s ∧
  client (blk (snd r)) = client (blk s) ∧ defers (snd r) = defers s ∧
  watchers (snd r) = watchers s ∧
  length (replies (snd r)) =
    length (replies s) +
    length (filter (fun st => is_query st = true) stimuli).
Proof.
  intros Hall.
  assert (Hloop : let r := Run_loop stimuli s in
    fst r = Val Blocked ∧
    calls (snd r) = calls s ∧ world (snd r) = world s ∧ out (snd r) = out s ∧
    client (blk (snd r)) = client (blk s) ∧ defers (snd r) = defers s ∧
    watchers (snd r) = watchers s ∧
    length (replies (snd r)) =
      length (replies s) + length (filter (fun st => is_query st = true) stimuli)).
  { revert s. induction Hall as [|st rest Hst _ IH]; intros s; simpl.
    { by split_and!. }
    destruct st as [msgI| |]; [| done |].
    - destruct (offending msgI) as [key|] eqn:Hbad; [|done].
      pose proof (Run_inrule_invalid msgI s key Hbad) as Hr. simpl in Hr.
      simpl. unfold bind. destruct (Run_inrule msgI s) as [r1 s1].
      simpl in Hr. destruct Hr as (-> & Hc & Hw & Ho & Hcl & Hd & Hwa & Hre).
      specialize (IH s1). simpl in IH.
      try rewrite filter_cons_False by done.
      rewrite Hc, Hw, Ho, Hcl, Hd, Hwa, Hre in IH. exact IH.
    - simpl. unfold bind, Run_queryrule. munfold. simpl.
      match goal with
      | |- context [Run_loop rest ?s1] => specialize (IH s1)
      end.
      simpl in IH. try rewrite filter_cons_True by done. simpl.
      rewrite length_app in IH. simpl in IH.
      destruct IH as (? & ? & ? & ? & ? & ? & ? & Hlen).
      split_and!; try done. lia. }
  unfold Run. simpl in Hloop.
  destruct (Run_loop stimuli s) as [r1 s1]. simpl in Hloop.
  destruct Hloop as (-> & Hrest). simpl. split; [done | exact Hrest].
Qed.

Lemma run_defers_all_some (cs : list Client) (s : St) :
  let r := run_defers (Some <$> cs) s in
  fst r = Val tt ∧
  calls (snd r) = calls s ++ ((fun d => CClose d true) <$> cs) ∧
  out (snd r) = out s ∧ errlog (snd r) = errlog s.
Proof.
  revert s. induction cs as [|d cs IH]; intros s; simpl.
  { by rewrite app_nil_r. }
  unfold conn_Close. munfold. simpl.
  destruct (Close d true (world s)) as [cerr w1]; simpl.
  match goal with
  | |- context [run_defers _ ?s1] =>
    destruct (IH s1) as (Hr & Hcalls & Hout & Herr)
  end.
  simpl in *. destruct (run_defers _ _) as [r2 s2]. simpl in *. subst r2.
  rewrite Hcalls, Hout, Herr, <- app_assoc. done.
Qed.

(** X17.  On a shutdown signal [Run] calls [Close] on the current client
    and then, on its way out, on every client whose close was deferred,
    the latest first; so a client opened by a rule that is still current
    is closed twice.  What [Close] returns is not looked at: nothing is
    reported. *)
Theorem shutdown_closes_current_then_deferred (s : St) (c : Client)
    (cs : list Client) :
  client (blk s) = Some c ->
  defers s = Some <$> cs ->
  let r := Run [Quit] s in
  fst r = Val Returned ∧
  calls (snd r) =
    calls s ++ CClose c true :: ((fun d => CClose d true) <$> cs) ∧
  out (snd r) = out s ∧ errlog (snd r) = errlog s.
Proof.
  intros Hc Hds. unfold Run. simpl. unfold bind, Run_quit. munfold. simpl.
  rewrite Hc. simpl. destruct (Close c true (world s)) as [cerr w1]. simpl.
  rewrite Hds.
  match goal with
  | |- context [run_defers _ ?s1] =>
    destruct (run_defers_all_some cs s1) as (Hr & Hcalls & Hout & Herr);
      destruct (run_defers _ s1) as [r2 s2]
  end.
  simpl in *. subst r2. simpl. rewrite Hcalls, Hout, Herr, <- app_assoc. done.
Qed.

End More.

(** ** Rules *)

Lemma ParseRequiredString_agree (msgI msgI' : gmap string value) (key : string) :
  msgI !! key = msgI' !! key ->
  ParseRequiredString msgI key = ParseRequiredString msgI' key.
Proof. unfold ParseRequiredString. by intros ->. Qed.

(** X18.  [parseAuthRules] reads the four required keys and nothing else:
    two rules that agree on Host, Username, Password and Mailbox have the
    same outcome, whatever other keys they carry. *)
Theorem parseAuthRules_reads_four_keys (msgI msgI' : gmap string value)
    (e : FromEmail) :
  (∀ key, key ∈ required -> msgI !! key = msgI' !! key) ->
  parseAuthRules msgI e = parseAuthRules msgI' e.
Proof.
  intros Hagree. unfold parseAuthRules.
  rewrite (ParseRequiredString_agree msgI msgI' "Host"),
          (ParseRequiredString_agree msgI msgI' "Username"),
          (ParseRequiredString_agree msgI msgI' "Password"),
          (ParseRequiredString_agree msgI msgI' "Mailbox");
    try (apply Hagree; unfold required; set_solver).
  done.
Qed.

(** X19.  Sending the same rule again changes nothing more: applied to the
    block it has already been applied to, a rule gives the same fields and
    the same verdict, whether it passes validation or not. *)
Theorem parseAuthRules_idempotent (msgI : gmap string value) (e : FromEmail) :
  parseAuthRules msgI (fst (parseAuthRules msgI e)) = parseAuthRules msgI e.
Proof.
  unfold parseAuthRules. rewrite !ParseRequiredString_str_field.
  destruct (str_field msgI "Host"); simpl; [|done].
  destruct (str_field msgI "Username"); simpl; [|done].
  destruct (str_field msgI "Password"); simpl; [|done].
  destruct (str_field msgI "Mailbox"); simpl; done.
Qed.

(** ** The skeleton block *)

(** X20.  The skeleton's [Run] returns at the first message on [quit] and
    at nothing else: the messages before it, of whatever kind, are received
    and dropped, and those after it are never received. *)
Theorem Skeleton_Run_returns_at_first_quit (arriving post : list Skeleton.message) :
  Skeleton.Run arriving = (Returned, post) ↔
  ∃ pre msg,
    arriving = pre ++ Skeleton.on_quit msg :: post ∧
    Forall (fun m => Skeleton.is_quit m = false) pre.
Proof.
  split.
  - revert post. induction arriving as [|m rest IH]; intros post; simpl; [done|].
    destruct m as [msg|msg|msg|msg|]; simpl.
    2:{ intros [= <-]. exists [], msg. by split. }
    all: intros Hrun; destruct (IH post Hrun) as (pre & q & -> & Hpre).
    all: eexists (_ :: pre), q; split; [done|]; by constructor.
  - intros (pre & msg & -> & Hpre).
    induction Hpre as [|m pre Hm _ IH]; simpl; [done|].
    by destruct m.
Qed.

(** ** The further properties on the server *)

(** X4, at the mailbox [late_mail]: two records, one sent and one
    reported. *)
Lemma fetchUnread_accounts_for_every_record_witness :
  let s := connect late_mail in
  let r := fetchUnread s in
  client (blk s) = Some 0 ∧
  length (out (snd r)) + length (errlog (snd r)) =
  length (out s) + length (errlog s) + 2.
Proof.
  pose proof (fetchUnread_accounts_for_every_record (connect late_mail) 0
                ltac:(vm_compute; reflexivity)
                ltac:(vm_compute; reflexivity)
                ltac:(vm_compute; reflexivity)) as W.
  vm_compute in W. vm_compute. split; [reflexivity | exact W].
Defined.

(** X5, at an empty mailbox. *)
Lemma fetchUnread_empty_sweep_witness :
  let s := connect [] in
  let r := fetchUnread s in
  client (blk s) = Some 0 ∧
  fst r = Val None ∧
  length (calls (snd r)) = length (calls s) + 2.
Proof.
  pose proof (fetchUnread_empty_sweep (connect []) 0
                ltac:(vm_compute; reflexivity)
                ltac:(vm_compute; reflexivity)
                ltac:(vm_compute; reflexivity)) as W.
  destruct W as [W1 W2]. split; [vm_compute; reflexivity|].
  split; [vm_compute in W1; vm_compute; exact W1|].
  cbv zeta. rewrite W2. rewrite length_app. reflexivity.
Defined.

(** X6, at a block fresh from the factory. *)
Lemma nil_client_panics_witness :
  let s := start (serving []) in
  client (blk s) = None ∧ fst (fetchUnread s) = Panic ∧ fst (idle_poll s) = Panic.
Proof.
  pose proof (nil_client_panics (start (serving [])) eq_refl) as (W1 & _ & W2 & _).
  split; [reflexivity|]. by rewrite W1, W2.
Defined.


(** X7, at a watcher in the wait with one response waiting: every call of
    the branch succeeds and the loop goes on. *)
Lemma idle_poll_exits_on_failure_witness :
  let s := notified two_unread in
  let r := idle_poll s in
  client (blk s) = Some 0 ∧
  fst r = Val Continue ∧
  sleeps (snd r) = S (sleeps s).
Proof.
  pose proof (idle_poll_exits_on_failure (notified two_unread) 0
                ltac:(vm_compute; reflexivity)) as [W _].
  split; [vm_compute; reflexivity|].
  split; [vm_compute; reflexivity | exact W].
Defined.

(** X8, at the same watcher: the fetch lies between [IdleTerm] and
    [Idle]. *)
Lemma idle_poll_fetches_outside_the_wait_witness :
  let s := notified two_unread in
  let r := idle_poll s in
  client (blk s) = Some 0 ∧
  ∃ new, calls (snd r) = calls s ++ new ∧ length new = 5.
Proof.
  pose proof (idle_poll_fetches_outside_the_wait (notified two_unread) 0
                ltac:(vm_compute; reflexivity)) as (new & W & _).
  split; [vm_compute; reflexivity|].
  exists new. split; [exact W|].
  apply (f_equal length) in W. rewrite length_app in W.
  vm_compute in W. vm_compute. lia.
Defined.

(** X9, at a watcher in the wait on a server that has sent nothing: the
    poll times out and the watcher returns, the client still in the
    wait. *)
Lemma idle_poll_returns_when_recv_fails_witness :
  let s := armed two_unread in
  let r := idle_poll s in
  client (blk s) = Some 0 ∧
  fst (Recv 0 (world s)) = Some (LibError "imap: operation timeout") ∧
  fst r = Val Return ∧
  calls (snd r) = calls s ++ [CRecv 0 (Some (LibError "imap: operation timeout"))] ∧
  errlog (snd r) = [LibError "imap: operation timeout"] ∧
  out (snd r) = [] ∧
  idling <$> conns (world (snd r)) = [true].
Proof.
  pose proof (idle_poll_returns_when_recv_fails (armed two_unread) 0
                (LibError "imap: operation timeout")
                ltac:(vm_compute; reflexivity)
                ltac:(vm_compute; reflexivity)) as (W1 & W2 & W3 & W4 & W5 & _).
  split_and!; [| | exact W1 | exact W2 | rewrite W4 | rewrite W5 | rewrite W3].
  all: vm_compute; reflexivity.
Defined.

(** X10, at a client that is already in the wait: a second IDLE is
    refused. *)
Lemma watcher_exits_when_arm_fails_witness :
  let s := armed two_unread in
  let r := idle_run [RunArm; Second; ResetTick] new_watcher s in
  client (blk s) = Some 0 ∧
  fst (Idle 0 (world s)) = Some (LibError "idle") ∧
  pc (fst r) = Exited ∧
  errlog (snd r) = errlog s ++ [LibError "idle"].
Proof.
  pose proof (watcher_exits_when_arm_fails [Second; ResetTick]
                (armed two_unread) 0 (LibError "idle")
                ltac:(vm_compute; reflexivity)
                ltac:(vm_compute; reflexivity)) as (W1 & _ & W2 & _).
  split_and!; first [exact W1 | exact W2 | vm_compute; reflexivity].
Defined.

(** X14, at two accepted rules followed by the shutdown. *)
Lemma Run_leaves_no_session_open_witness :
  let r := Run [InRule accepted; InRule accepted; Quit] (start (serving two_unread)) in
  fst r ≠ Val Blocked ∧ open_sessions (calls (snd r)) = [].
Proof.
  assert (Hended : fst (Run [InRule accepted; InRule accepted; Quit]
                          (start (serving two_unread))) ≠ Val Blocked)
    by (vm_compute; discriminate).
  split; [exact Hended|].
  exact (Run_leaves_no_session_open _ _ Hended).
Defined.

Lemma dial_keeps_promise : dial_gives_client.
Proof.
  intros addr w. simpl. unfold dial.
  destruct (String.eqb addr (srv_host w)); simpl; done.
Qed.

Lemma no_quit_among (stimuli : list stimulus) :
  forallb (fun st => match st with Quit => false | _ => true end) stimuli = true ->
  Quit ∉ stimuli.
Proof.
  induction stimuli as [|st rest IH]; simpl; [intros _; apply not_elem_of_nil|].
  intros Hall. apply andb_prop in Hall as [Hst Hrest].
  apply not_elem_of_cons. split; [by destruct st | by apply IH].
Qed.

(** X15, at a rejected rule, a refused login, a query and an accepted
    rule: the loop is back in its select, the validation error and the
    refusal of the login are reported, and the host of the accepted rule
    was dialled. *)
Lemma Run_survives_rules_and_queries_witness :
  let stimuli := [InRule no_password; InRule mistyped; QueryRule; InRule accepted] in
  let r := Run stimuli (start (serving two_unread)) in
  dial_gives_client ∧
  (Quit ∉ stimuli) ∧
  fst r = Val Blocked ∧
  ValidationError "Password" ∈ errlog (snd r) ∧
  LibError "login" ∈ errlog (snd r) ∧
  ∃ conn err, CDialTLS "imap.example.com" conn err ∈ calls (snd r).
Proof.
  assert (Hquit : Quit ∉ [InRule no_password; InRule mistyped; QueryRule;
                          InRule accepted])
    by (apply no_quit_among; reflexivity).
  pose proof (Run_survives_rules_and_queries _ (start (serving two_unread))
                dial_keeps_promise Hquit) as W.
  cbv zeta in W.
  destruct W as (W1 & new & errs & Hc & He & Hk & Hbad & Hok).
  change (calls (start _) ++ new) with new in Hc.
  change (errlog (start _) ++ errs) with errs in He.
  cbv zeta.
  split_and!; [exact dial_keeps_promise | exact Hquit | exact W1 | | |].
  - rewrite He. apply (Hbad no_password "Password").
    + apply list_elem_of_here.
    + vm_compute. reflexivity.
  - rewrite He.
    apply (Hk (CLogin 0 "u" "wrong" (Some (LibError "login")))); [|reflexivity].
    rewrite <- Hc. apply (list_elem_of_lookup_2 _ 1). vm_compute. reflexivity.
  - rewrite Hc. apply (Hok accepted "imap.example.com").
    + do 3 apply list_elem_of_further. apply list_elem_of_here.
    + vm_compute. reflexivity.
    + vm_compute. reflexivity.
Defined.

(** X16, at a query, a rule without password and a second query. *)
Lemma Run_is_quiet_without_a_valid_rule_witness :
  let s := start (serving two_unread) in
  let r := Run [QueryRule; InRule no_password; QueryRule] s in
  offending no_password ≠ None ∧
  calls (snd r) = [] ∧
  length (replies (snd r)) = 2.
Proof.
  assert (Hbad : offending no_password ≠ None) by (vm_compute; discriminate).
  pose proof (Run_is_quiet_without_a_valid_rule
                [QueryRule; InRule no_password; QueryRule]
                (start (serving two_unread))
                ltac:(repeat constructor; exact Hbad)) as (_ & W1 & _ & _ & _ & _ & _ & W2).
  split; [exact Hbad|]. split; [exact W1 | exact W2].
Defined.

(** X18, at the accepted rule with and without a Port key. *)
Lemma parseAuthRules_reads_four_keys_witness :
  (∀ key, key ∈ required -> with_port !! key = accepted !! key) ∧
  parseAuthRules with_port NewFromEmail = parseAuthRules accepted NewFromEmail.
Proof.
  assert (Hagree : ∀ key, key ∈ required -> with_port !! key = accepted !! key).
  { intros key Hkey. unfold with_port. apply lookup_insert_ne.
    intros <-. unfold required in Hkey.
    repeat (apply elem_of_cons in Hkey as [Hkey|Hkey]; [discriminate|]).
    by apply elem_of_nil in Hkey. }
  split; [exact Hagree|].
  exact (parseAuthRules_reads_four_keys _ _ _ Hagree).
Defined.

(** X17, at the shutdown after one accepted rule: the client is closed
    twice. *)
Lemma shutdown_closes_current_then_deferred_witness :
  let s := snd (Run_inrule accepted (start (serving two_unread))) in
  let r := Run [Quit] s in
  client (blk s) = Some 0 ∧
  defers s = Some <$> [0] ∧
  fst r = Val Returned ∧
  calls (snd r) = calls s ++ [CClose 0 true; CClose 0 true].
Proof.
  pose proof (shutdown_closes_current_then_deferred
                (snd (Run_inrule accepted (start (serving two_unread)))) 0 [0]
                ltac:(vm_compute; reflexivity)
                ltac:(vm_compute; reflexivity)) as (W1 & W2 & _).
  split_and!; first [exact W1 | exact W2 | vm_compute; reflexivity].
Defined.
